(** * destined: a Future-wrapped [fs] API

    A model of [src/fs.js] and of what it is written against: the
    JavaScript values and string primitives it uses, the Ramda helpers
    it imports ([without], [propOr], [reduce], [F]), the Node
    file-system calls it wraps, the [glob] package, and Fluture's
    [Future] with the combinators [map], [mapRej], [chain],
    [chainRej], [race] and [parallel].

    The exports of [fs.js] are translated function by function in the
    section [Destined] (all but [ioWithCancel] and its instances,
    which work on file descriptors); the execution of a [Future] is an
    event loop driven by an explicit schedule that says which
    in-flight I/O call completes next. *)

From Stdlib Require Import ZArith String Ascii List Lia Bool.
From stdpp Require Import base gmap strings list.

#[local] Set Warnings "-register-all".

(** ** JavaScript values *)

(** Numbers are restricted to the integers (every number in [fs.js] and
    its configuration objects is one); a [Buffer] is its bytes; an
    object is a finite map from property names to values. *)
Inductive Value : Type :=
| VUndefined
| VNull
| VBool (b : bool)
| VNum (n : Z)
| VStr (s : string)
| VError (name message : string)
| VBuffer (bytes : list Byte.byte)
| VArr (xs : list Value)
| VObj (fields : gmap string Value).

(** A configuration object ([conf], [options]). *)
Abbreviation Obj := (gmap string Value).

(** The result of calling a JavaScript function that may throw. *)
Inductive Throwing (A : Type) : Type :=
| Return (a : A)
| Throw (e : Value).
Arguments Return {A} a.
Arguments Throw {A} e.

Definition TypeError (message : string) : Value := VError "TypeError" message.

(** [x == null]: the test Ramda uses for a missing value. *)
Definition isNil (v : Value) : bool :=
  match v with
  | VUndefined | VNull => true
  | _ => false
  end.

(** SameValueZero, the equality of [Set.prototype.has]: primitives are
    compared by value; arrays, objects and errors by reference, so a
    stored one never equals the element of a literal list. *)
Definition sameValueZero (a b : Value) : bool :=
  match a, b with
  | VUndefined, VUndefined => true
  | VNull, VNull => true
  | VBool x, VBool y => Bool.eqb x y
  | VNum x, VNum y => Z.eqb x y
  | VStr x, VStr y => String.eqb x y
  | _, _ => false
  end.

(** ** String primitives *)

(** [s.lastIndexOf(c)] for a one-character search string: the index of
    the last occurrence, or -1. *)
Fixpoint lastIndexOf_from (c : ascii) (s : string) (i found : Z) : Z :=
  match s with
  | EmptyString => found
  | String a s' =>
      lastIndexOf_from c s' (i + 1) (if Ascii.eqb a c then i else found)
  end.

Definition lastIndexOf (s : string) (c : ascii) : Z :=
  lastIndexOf_from c s 0 (-1).

(** [s.slice(b, e)]: a negative index counts from the end, and both
    ends are clamped to the string. *)
Definition slice (s : string) (b e : Z) : string :=
  let len := Z.of_nat (String.length s) in
  let from := if (b <? 0)%Z then Z.max (len + b) 0 else Z.min b len in
  let to := if (e <? 0)%Z then Z.max (len + e) 0 else Z.min e len in
  substring (Z.to_nat from) (Z.to_nat (Z.max (to - from) 0)) s.

(** The string without its last character (the empty string stays). *)
Fixpoint dropLast (s : string) : string :=
  match s with
  | EmptyString => EmptyString
  | String a EmptyString => EmptyString
  | String a s' => String a (dropLast s')
  end.

(** [s.includes(c)] for a one-character search string. *)
Fixpoint includes (c : ascii) (s : string) : bool :=
  match s with
  | EmptyString => false
  | String a s' => Ascii.eqb a c || includes c s'
  end.

Definition startsWith (c : ascii) (s : string) : bool :=
  match s with
  | String a _ => Ascii.eqb a c
  | EmptyString => false
  end.

(** [s.split("/")]. *)
Fixpoint splitSlash (s : string) : list string :=
  match s with
  | EmptyString => [EmptyString]
  | String a s' =>
      if Ascii.eqb a "/" then EmptyString :: splitSlash s'
      else match splitSlash s' with
           | x :: xs => String a x :: xs
           | [] => [String a EmptyString]
           end
  end.

(** ** Ramda *)

Module R.

(** [R.F]: the function that always returns [false]. *)
Definition F (_ : Value) : Value := VBool false.

(** [R.filter(pred, obj)] on a plain object keeps the properties whose
    VALUE satisfies [pred]. *)
Definition filter (pred : Value -> bool) (obj : Obj) : Obj :=
  base.filter (fun kv : string * Value => pred kv.2 = true) obj.

(** [R.reject(pred, obj) = R.filter(complement(pred), obj)]. *)
Definition reject (pred : Value -> bool) (obj : Obj) : Obj :=
  filter (fun v => negb (pred v)) obj.

(** [R.without(xs, list)] is [reject(x => xs has x, list)].  It is
    documented for lists; given a plain object, [reject] dispatches
    to the object case of [filter], so the VALUES found in [xs] are
    the ones dropped, whatever their keys. *)
Definition without (xs : list Value) (obj : Obj) : Obj :=
  reject (fun v => existsb (sameValueZero v) xs) obj.

(** [R.propOr(def, name, obj)]: the property, or [def] when it is
    absent, [null] or [undefined]. *)
Definition propOr (def : Value) (name : string) (obj : Obj) : Value :=
  match obj !! name with
  | Some v => if isNil v then def else v
  | None => def
  end.

(** [R.reduce(f, acc, list)]. *)
Definition reduce {A B : Type} (f : A -> B -> A) (acc : A) (l : list B) : A :=
  fold_left f l acc.

End R.

(** ** The file system behind [node:fs] *)

(** A path is resolved component by component, as the kernel does: the
    tree maps the absolute component list of every existing entry to
    its node; the root (the empty list) is always a directory.
    Permissions, links and descriptors are outside the model. *)
Inductive Node : Type :=
| File (data : list Byte.byte)
| Dir.

Record World : Type := mkWorld {
  tree : gmap (list string) Node;
  cwd : list string
}.

Inductive Errno : Type := ENOENT | ENOTDIR | EISDIR | EEXIST | EBADF.

Definition errnoName (e : Errno) : string :=
  match e with
  | ENOENT => "ENOENT" | ENOTDIR => "ENOTDIR" | EISDIR => "EISDIR"
  | EEXIST => "EEXIST" | EBADF => "EBADF"
  end.

Definition errnoText (e : Errno) : string :=
  match e with
  | ENOENT => "no such file or directory"
  | ENOTDIR => "not a directory"
  | EISDIR => "illegal operation on a directory"
  | EEXIST => "file already exists"
  | EBADF => "bad file descriptor"
  end.

(** The error object Node builds for a failed system call. *)
Definition fsError (e : Errno) (syscall path : string) : Value :=
  VError "Error"
    (errnoName e +:+ ": " +:+ errnoText e +:+ ", " +:+ syscall +:+ " '" +:+ path +:+ "'").

(** What a callback [(err, data) => ...] receives. *)
Inductive Completion : Type :=
| Failed (err : Value)
| Done (data : Value).

Definition lookupNode (t : gmap (list string) Node) (q : list string) : option Node :=
  match q with
  | [] => Some Dir
  | _ => t !! q
  end.

Definition isName (c : string) : bool :=
  negb (String.eqb c "" || String.eqb c "." || String.eqb c "..").

Definition stepInto (cur : list string) (c : string) : list string :=
  if String.eqb c "" || String.eqb c "." then cur
  else if String.eqb c ".." then removelast cur
  else cur ++ [c].

(** Follow the components [cs] from [cur]; every directory stepped
    through must exist and be a directory. *)
Fixpoint walk (t : gmap (list string) Node) (cur : list string) (cs : list string)
  : Errno + list string :=
  match cs with
  | [] => inr cur
  | c :: cs' =>
      match lookupNode t cur with
      | Some Dir => walk t (stepInto cur c) cs'
      | Some (File _) => inl ENOTDIR
      | None => inl ENOENT
      end
  end.

Definition startDir (w : World) (p : string) : list string :=
  if startsWith "/" p then [] else cwd w.

Definition resolve (w : World) (p : string) : Errno + list string :=
  if String.eqb p "" then inl ENOENT
  else walk (tree w) (startDir w p) (splitSlash p).

(** [mkdir -p]: like [walk], creating each missing named directory on
    the way; the path reached must be a directory in the end. *)
Fixpoint mkdirs (t : gmap (list string) Node) (cur : list string) (cs : list string)
  : Errno + (gmap (list string) Node * list string) :=
  match cs with
  | [] =>
      match lookupNode t cur with
      | Some Dir => inr (t, cur)
      | Some (File _) => inl EEXIST
      | None => inl ENOENT
      end
  | c :: cs' =>
      match lookupNode t cur with
      | Some Dir =>
          let next := stepInto cur c in
          let t' := match lookupNode t next with
                    | None => if isName c then <[next := Dir]> t else t
                    | Some _ => t
                    end in
          mkdirs t' next cs'
      | Some (File _) => inl ENOTDIR
      | None => inl ENOENT
      end
  end.

(** Remove the entry at [q] and everything below it. *)
Definition removeTree (q : list string) (t : gmap (list string) Node)
  : gmap (list string) Node :=
  base.filter (fun kv : list string * Node => ¬ q `prefix_of` kv.1) t.

(** *** Options *)

Inductive Encoding : Type :=
| Utf8 | Utf16le | Latin1 | Ascii7 | Base64 | Base64url | Hex.

Definition parseEncoding (name : string) : option Encoding :=
  if String.eqb name "utf8" || String.eqb name "utf-8" then Some Utf8
  else if String.eqb name "utf16le" || String.eqb name "ucs2" then Some Utf16le
  else if String.eqb name "latin1" || String.eqb name "binary" then Some Latin1
  else if String.eqb name "ascii" then Some Ascii7
  else if String.eqb name "base64" then Some Base64
  else if String.eqb name "base64url" then Some Base64url
  else if String.eqb name "hex" then Some Hex
  else None.

Definition invalidArg (what : string) : Value :=
  VError "TypeError" ("The argument '" +:+ what +:+ "' is invalid").

(** The [encoding] a call asks for: [None] stands for "no encoding",
    where a read hands back the raw [Buffer]. *)
Definition encodingOption (v : Value) : Throwing (option Encoding) :=
  match v with
  | VUndefined | VNull => Return None
  | VStr name =>
      match parseEncoding name with
      | Some enc => Return (Some enc)
      | None => Throw (invalidArg "encoding")
      end
  | _ => Throw (invalidArg "encoding")
  end.

(** [fs.readFile(path, options, cb)]: [options] is an encoding name or
    an object with an [encoding] property. *)
Definition readOptions (format : Value) : Throwing (option Encoding) :=
  match format with
  | VObj o => encodingOption (R.propOr VUndefined "encoding" o)
  | _ => encodingOption format
  end.

Definition boolOption (name : string) (conf : Obj) : Throwing bool :=
  match conf !! name with
  | None | Some VUndefined => Return false
  | Some (VBool b) => Return b
  | Some _ => Throw (invalidArg name)
  end.

(** The options of [fs.rm] are merged over their defaults
    ([{ ...defaults, ...options }]) and then validated: a property
    that is there, even as [undefined], must have the right type.
    [validateBoolean]: *)
Definition mergedBoolOption (name : string) (conf : Obj) : Throwing bool :=
  match conf !! name with
  | None => Return false
  | Some (VBool b) => Return b
  | Some _ => Throw (invalidArg name)
  end.

Definition outOfRange (what : string) : Value :=
  VError "RangeError" ("The value of '" +:+ what +:+ "' is out of range").

(** [validateInt32(value, name, min)] and [validateUint32(value, name)]:
    a number, and an integer from [lo] to [hi]. *)
Definition intOption (name : string) (default lo hi : Z) (conf : Obj) : Throwing Z :=
  match conf !! name with
  | None => Return default
  | Some (VNum n) =>
      if (lo <=? n)%Z && (n <=? hi)%Z then Return n else Throw (outOfRange name)
  | Some _ => Throw (invalidArg name)
  end.

Inductive OpenFlag : Type :=
| FlagRead        (* r *)
| FlagUpdate      (* r+ *)
| FlagWrite (exclusive : bool)    (* w, w+, wx, wx+ *)
| FlagAppend (exclusive : bool).  (* a, a+, ax, ax+ *)

Definition parseFlag (name : string) : option OpenFlag :=
  if String.eqb name "r" then Some FlagRead
  else if String.eqb name "r+" then Some FlagUpdate
  else if String.eqb name "w" || String.eqb name "w+" then Some (FlagWrite false)
  else if String.eqb name "wx" || String.eqb name "xw"
          || String.eqb name "wx+" || String.eqb name "xw+" then Some (FlagWrite true)
  else if String.eqb name "a" || String.eqb name "a+" then Some (FlagAppend false)
  else if String.eqb name "ax" || String.eqb name "xa"
          || String.eqb name "ax+" || String.eqb name "xa+" then Some (FlagAppend true)
  else None.

Definition flagOption (conf : Obj) : Throwing OpenFlag :=
  match R.propOr (VStr "w") "flag" conf with
  | VStr name =>
      match parseFlag name with
      | Some f => Return f
      | None => Throw (invalidArg "flags")
      end
  | _ => Throw (invalidArg "flags")
  end.

(** [fs.writeFile(file, data, options, cb)] encodes a string with
    [options.encoding], utf8 when there is none. *)
Definition writeEncoding (conf : Obj) : Throwing Encoding :=
  match encodingOption (R.propOr VUndefined "encoding" conf) with
  | Return (Some enc) => Return enc
  | Return None => Return Utf8
  | Throw e => Throw e
  end.

(** *** The host: what the platform and the other packages provide *)

(** The value of the call expression [glob(g, conf)]. *)
Inductive GlobCall : Type :=
| GlobThrows (e : Value)
| GlobPromise (settle : World -> Completion)
| GlobValue (v : Value).

Class Host : Type := {
  (** [sep] of [node:path] *)
  sep : string;
  (** [Buffer.from(s, enc)] and [buf.toString(enc)] *)
  encode : Encoding -> string -> list Byte.byte;
  decode : Encoding -> list Byte.byte -> string;
  (** [JSON.parse] *)
  JSON_parse : string -> Throwing Value;
  (** [glob] of the [glob] package *)
  glob : string -> Obj -> GlobCall
}.

(** The two shapes the entry point of the [glob] package has had.

    Up to version 8 it is [glob(pattern, options, cb)]: in
    synchronous mode it refuses a callback and otherwise returns the
    matches as an array; in asynchronous mode it returns a [Glob]
    object and reports to [cb].  [withCallback] says whether the
    caller passed [cb]. *)
Definition truthy (v : Value) : bool :=
  match v with
  | VUndefined | VNull | VBool false | VNum 0 => false
  | VStr s => negb (String.eqb s "")
  | _ => true
  end.

Definition callbackGlob (found : string -> Obj -> list Value) (withCallback : bool)
  (g : string) (conf : Obj) : GlobCall :=
  if truthy (R.propOr VUndefined "sync" conf) then
    if withCallback then GlobThrows (TypeError "callback provided to sync glob")
    else GlobValue (VArr (found g conf))
  else GlobValue (VObj ∅).

(** From version 9 it is [glob(pattern, options)], which returns a
    promise of the matches; [sync] is not among its options. *)
Definition promiseGlob (search : string -> Obj -> World -> Completion)
  (g : string) (conf : Obj) : GlobCall :=
  GlobPromise (search g conf).

(** The host [h] with another [glob] package installed. *)
Definition withGlob (h : Host) (g : string -> Obj -> GlobCall) : Host :=
  Build_Host (@sep h) (@encode h) (@decode h) (@JSON_parse h) g.

(** *** Asynchronous calls *)

(** A callback-style call that has been issued and completes later. *)
Inductive IOop : Type :=
| ReadFile (x : string) (format : Value)
| WriteFile (file content : string) (conf : Obj)
| Rm (fd : string) (options : Obj)
| Mkdir (x : string) (conf : Obj)
| Access (filePath : string) (permissions : Z)
| AwaitGlob (settle : World -> Completion).

Definition thrown {A : Type} (t : Throwing A) : option Value :=
  match t with
  | Throw e => Some e
  | Return _ => None
  end.

Definition orElse (a b : option Value) : option Value :=
  match a with
  | Some e => Some e
  | None => b
  end.

(** Argument validation happens when the call is made and throws
    synchronously. *)
Definition validate (op : IOop) : option Value :=
  match op with
  | ReadFile _ format => thrown (readOptions format)
  | WriteFile _ _ conf => orElse (thrown (writeEncoding conf)) (thrown (flagOption conf))
  | Rm _ options =>
      (* [validateRmOptions]: recursive, retryDelay, maxRetries, force *)
      orElse (thrown (mergedBoolOption "recursive" options))
        (orElse (thrown (intOption "retryDelay" 100 0 2147483647 options))
           (orElse (thrown (intOption "maxRetries" 0 0 4294967295 options))
              (thrown (mergedBoolOption "force" options))))
  | Mkdir _ conf => thrown (boolOption "recursive" conf)
  | Access _ mode =>
      if (0 <=? mode)%Z && (mode <=? 7)%Z then None else Some (invalidArg "mode")
  | AwaitGlob _ => None
  end.

Definition getOr {A : Type} (d : A) (t : Throwing A) : A :=
  match t with
  | Return a => a
  | Throw _ => d
  end.

Section NodeFs.
Context {host : Host}.

Definition fs_access (filePath : string) (w : World) : Completion * World :=
  match resolve w filePath with
  | inr q =>
      match lookupNode (tree w) q with
      | Some _ => (Done VUndefined, w)
      | None => (Failed (fsError ENOENT "access" filePath), w)
      end
  | inl e => (Failed (fsError e "access" filePath), w)
  end.

Definition fs_readFile (x : string) (format : Value) (w : World) : Completion * World :=
  match resolve w x with
  | inr q =>
      match lookupNode (tree w) q with
      | Some (File data) =>
          match getOr None (readOptions format) with
          | Some enc => (Done (VStr (decode enc data)), w)
          | None => (Done (VBuffer data), w)
          end
      | Some Dir => (Failed (fsError EISDIR "read" x), w)
      | None => (Failed (fsError ENOENT "open" x), w)
      end
  | inl e => (Failed (fsError e "open" x), w)
  end.

Definition putFile (q : list string) (data : list Byte.byte) (w : World) : World :=
  mkWorld (<[q := File data]> (tree w)) (cwd w).

Definition fs_writeFile (file content : string) (conf : Obj) (w : World)
  : Completion * World :=
  let data := encode (getOr Utf8 (writeEncoding conf)) content in
  match resolve w file with
  | inr q =>
      match lookupNode (tree w) q, getOr (FlagWrite false) (flagOption conf) with
      | Some Dir, _ => (Failed (fsError EISDIR "open" file), w)
      | Some (File _), FlagRead => (Failed (fsError EBADF "write" file), w)
      | Some (File old), FlagUpdate =>
          (Done VUndefined, putFile q (data ++ drop (length data) old) w)
      | Some (File _), FlagWrite true => (Failed (fsError EEXIST "open" file), w)
      | Some (File _), FlagWrite false => (Done VUndefined, putFile q data w)
      | Some (File _), FlagAppend true => (Failed (fsError EEXIST "open" file), w)
      | Some (File old), FlagAppend false =>
          (Done VUndefined, putFile q (old ++ data) w)
      | None, (FlagRead | FlagUpdate) => (Failed (fsError ENOENT "open" file), w)
      | None, (FlagWrite _ | FlagAppend _) =>
          match lookupNode (tree w) (removelast q) with
          | Some Dir => (Done VUndefined, putFile q data w)
          | Some (File _) => (Failed (fsError ENOTDIR "open" file), w)
          | None => (Failed (fsError ENOENT "open" file), w)
          end
      end
  | inl e => (Failed (fsError e "open" file), w)
  end.

Definition fs_rm (fd : string) (options : Obj) (w : World) : Completion * World :=
  let force := getOr false (boolOption "force" options) in
  let recursive := getOr false (boolOption "recursive" options) in
  let missing := if force then Done VUndefined
                 else Failed (fsError ENOENT "lstat" fd) in
  match resolve w fd with
  | inr q =>
      match lookupNode (tree w) q with
      | Some (File _) => (Done VUndefined, mkWorld (delete q (tree w)) (cwd w))
      | Some Dir =>
          if recursive then (Done VUndefined, mkWorld (removeTree q (tree w)) (cwd w))
          else (Failed (VError "SystemError" ("Path is a directory: rm returned EISDIR (is a directory) " +:+ fd)), w)
      | None => (missing, w)
      end
  | inl ENOENT => (missing, w)
  | inl e => (Failed (fsError e "lstat" fd), w)
  end.

Definition fs_mkdir (x : string) (conf : Obj) (w : World) : Completion * World :=
  if String.eqb x "" then (Failed (fsError ENOENT "mkdir" x), w)
  else if getOr false (boolOption "recursive" conf) then
    match mkdirs (tree w) (startDir w x) (splitSlash x) with
    | inr (t, _) => (Done VUndefined, mkWorld t (cwd w))
    | inl e => (Failed (fsError e "mkdir" x), w)
    end
  else
    match resolve w x with
    | inr q =>
        match lookupNode (tree w) q, lookupNode (tree w) (removelast q) with
        | Some _, _ => (Failed (fsError EEXIST "mkdir" x), w)
        | None, Some Dir => (Done VUndefined, mkWorld (<[q := Dir]> (tree w)) (cwd w))
        | None, Some (File _) => (Failed (fsError ENOTDIR "mkdir" x), w)
        | None, None => (Failed (fsError ENOENT "mkdir" x), w)
        end
    | inl e => (Failed (fsError e "mkdir" x), w)
    end.

(** A path a file can be written at: it resolves, the place is not
    a directory, and where nothing exists yet the directory that
    will hold the file does. *)
Definition validPath (w : World) (file : string) : bool :=
  match resolve w file with
  | inr q =>
      match lookupNode (tree w) q with
      | Some (File _) => true
      | Some Dir => false
      | None =>
          match lookupNode (tree w) (removelast q) with
          | Some Dir => true
          | _ => false
          end
      end
  | inl _ => false
  end.

(** The effect and the result of a call at the moment it completes. *)
Definition perform (op : IOop) (w : World) : Completion * World :=
  match op with
  | ReadFile x format => fs_readFile x format w
  | WriteFile file content conf => fs_writeFile file content conf w
  | Rm fd options => fs_rm fd options w
  | Mkdir x conf => fs_mkdir x conf w
  | Access filePath _ => fs_access filePath w
  | AwaitGlob settle => (settle w, w)
  end.

End NodeFs.

(** ** Fluture *)

(** How a computation ends: an exception escaping the pipeline (the
    fatal channel, which [fork] rethrows), a rejection, a resolution. *)
Inductive Outcome : Type :=
| Crashed (e : Value)
| Rejected (reason : Value)
| Resolved (value : Value).

(** A cancellation function; [NO_OP] is [() => {}]. *)
Inductive Cancel : Type :=
| NO_OP
| CancelHook (name : string).

(** A [Future] is inert syntax until it is run.
    - [Computation op k cancel] is
      [Future((bad, good) => { op(..., k); return cancel })], where the
      callback [k] ends in [bad(_)] or [good(_)];
    - [Immediate o cancel] is a computation whose body settles
      before it returns. *)
Inductive Future : Type :=
| Computation (op : IOop) (callback : Completion -> Outcome) (cancel : Cancel)
| Immediate (o : Outcome) (cancel : Cancel)
| Map (f : Value -> Throwing Value) (m : Future)
| MapRej (f : Value -> Throwing Value) (m : Future)
| Chain (f : Value -> Future) (m : Future)
| ChainRej (f : Value -> Future) (m : Future)
| Race (left right : Future)
| Parallel (max : nat) (ms : list Future).

(** A [Future] that has been started. *)
Inductive Running : Type :=
| Settled (o : Outcome)
| Pending (op : IOop) (callback : Completion -> Outcome) (cancel : Cancel)
| RunMap (f : Value -> Throwing Value) (r : Running)
| RunMapRej (f : Value -> Throwing Value) (r : Running)
| RunChain (f : Value -> Future) (r : Running)
| RunChainRej (f : Value -> Future) (r : Running)
| RunRace (left right : Running)
| RunParallel (max : nat) (started : list Running) (queue : list Future).

(** The calls in flight, by their place in the computation (for a
    race, those of the left member before those of the right): an
    enumeration for the schedule to choose from, not the order in
    which the calls were issued. *)
Fixpoint inflight (r : Running) : list (IOop * Cancel) :=
  match r with
  | Settled _ => []
  | Pending op _ cancel => [(op, cancel)]
  | RunMap _ r' | RunMapRej _ r' | RunChain _ r' | RunChainRej _ r' => inflight r'
  | RunRace a b => inflight a ++ inflight b
  | RunParallel _ started _ => concat (List.map inflight started)
  end.

Definition isSettled (r : Running) : bool :=
  match r with
  | Settled _ => true
  | _ => false
  end.

(** An exception thrown by the function given to [map] or [mapRej]
    crashes the Future. *)
Definition applyThrowing (f : Value -> Throwing Value) (x : Value)
  (wrap : Value -> Outcome) : Outcome :=
  match f x with
  | Return y => wrap y
  | Throw e => Crashed e
  end.

Definition afterMap (f : Value -> Throwing Value) (r : Running) : Running :=
  match r with
  | Settled (Resolved v) => Settled (applyThrowing f v Resolved)
  | Settled o => Settled o
  | _ => RunMap f r
  end.

Definition afterMapRej (f : Value -> Throwing Value) (r : Running) : Running :=
  match r with
  | Settled (Rejected e) => Settled (applyThrowing f e Rejected)
  | Settled o => Settled o
  | _ => RunMapRej f r
  end.

(** The first started computation that did not resolve, if any. *)
Fixpoint firstFailure (rs : list Running) : option Outcome :=
  match rs with
  | [] => None
  | Settled (Resolved _) :: rs' => firstFailure rs'
  | Settled o :: _ => Some o
  | _ :: rs' => firstFailure rs'
  end.

(** The values of the computations, when all of them have resolved. *)
Fixpoint resolvedValues (rs : list Running) : option (list Value) :=
  match rs with
  | [] => Some []
  | Settled (Resolved v) :: rs' =>
      match resolvedValues rs' with
      | Some vs => Some (v :: vs)
      | None => None
      end
  | _ :: _ => None
  end.

Definition countRunning (rs : list Running) : nat :=
  length (List.filter (fun r => negb (isSettled r)) rs).

(** What [parallel] is once its slots have been refilled: rejected (or
    crashed) as soon as one member is, the others being cancelled;
    resolved with the values in input order when nothing is left. *)
Definition settleParallel (max : nat) (started : list Running) (queue : list Future)
  : Running * list (IOop * Cancel) :=
  match firstFailure started with
  | Some o => (Settled o, concat (List.map inflight started))
  | None =>
      match queue, resolvedValues started with
      | [], Some vs => (Settled (Resolved (VArr vs)), [])
      | _, _ => (RunParallel max started queue, [])
      end
  end.

Section Drain.
Variable go : Future -> Running * list (IOop * Cancel).

(** [while (cursor < length && running < max) run(cursor++)]; a
    member that fails while being started stops the loop. *)
Fixpoint drain (max : nat) (started : list Running) (queue : list Future)
  (orphaned : list (IOop * Cancel))
  : list Running * list Future * list (IOop * Cancel) :=
  match queue with
  | [] => (started, [], orphaned)
  | m :: queue' =>
      match firstFailure started with
      | Some _ => (started, queue, orphaned)
      | None =>
          if countRunning started <? max then
            let '(r, o) := go m in
            drain max (started ++ [r]) queue' (orphaned ++ o)
          else (started, queue, orphaned)
      end
  end.
End Drain.

(** Starting a Future issues the calls of the computations that run
    first; the second component lists calls abandoned on the way (a
    race decided at once). *)
Fixpoint start (m : Future) : Running * list (IOop * Cancel) :=
  match m with
  | Computation op k cancel =>
      match validate op with
      | Some e => (Settled (Crashed e), [])
      | None => (Pending op k cancel, [])
      end
  | Immediate o _ => (Settled o, [])
  | Map f m' => let '(r, o) := start m' in (afterMap f r, o)
  | MapRej f m' => let '(r, o) := start m' in (afterMapRej f r, o)
  | Chain f m' =>
      let '(r, o) := start m' in
      match r with
      | Settled (Resolved v) => let '(r2, o2) := start (f v) in (r2, o ++ o2)
      | Settled x => (Settled x, o)
      | _ => (RunChain f r, o)
      end
  | ChainRej f m' =>
      let '(r, o) := start m' in
      match r with
      | Settled (Rejected e) => let '(r2, o2) := start (f e) in (r2, o ++ o2)
      | Settled x => (Settled x, o)
      | _ => (RunChainRej f r, o)
      end
  | Race a b =>
      (* [race(a)(b)] is [b] with [a] racing it: [b] is run first, and
         [a] is not run at all when [b] settles at once *)
      let '(rb, ob) := start b in
      match rb with
      | Settled x => (Settled x, ob)
      | _ =>
          let '(ra, oa) := start a in
          match ra with
          | Settled x => (Settled x, ob ++ oa ++ inflight rb)
          | _ => (RunRace ra rb, ob ++ oa)
          end
      end
  | Parallel max ms =>
      let '(started, queue, o) := drain start max [] ms [] in
      let '(r, o2) := settleParallel max started queue in
      (r, o ++ o2)
  end.

Section Slots.
Variable go : nat -> Running -> World -> Running * World * list (IOop * Cancel).

(** Complete the [i]-th call in flight among the members of a
    [parallel]. *)
Fixpoint fireSlots (i : nat) (rs : list Running) (w : World)
  : list Running * World * list (IOop * Cancel) :=
  match rs with
  | [] => ([], w, [])
  | r1 :: rs' =>
      let n := length (inflight r1) in
      if i <? n then
        let '(r1', w', o) := go i r1 w in (r1' :: rs', w', o)
      else
        let '(rs'', w', o) := fireSlots (i - n) rs' w in (r1 :: rs'', w', o)
  end.
End Slots.

Section EventLoop.
Context {host : Host}.

(** Complete the [i]-th call in flight: its effect on the file system
    happens, its callback settles its computation, and what depended
    on it moves on (continuations start, races are decided, a
    parallel slot is refilled). *)
Fixpoint fire (i : nat) (r : Running) (w : World)
  : Running * World * list (IOop * Cancel) :=
  match r with
  | Settled _ => (r, w, [])
  | Pending op k _ => let '(res, w') := perform op w in (Settled (k res), w', [])
  | RunMap f r1 => let '(r', w', o) := fire i r1 w in (afterMap f r', w', o)
  | RunMapRej f r1 => let '(r', w', o) := fire i r1 w in (afterMapRej f r', w', o)
  | RunChain f r1 =>
      let '(r', w', o) := fire i r1 w in
      match r' with
      | Settled (Resolved v) => let '(r2, o2) := start (f v) in (r2, w', o ++ o2)
      | Settled x => (Settled x, w', o)
      | _ => (RunChain f r', w', o)
      end
  | RunChainRej f r1 =>
      let '(r', w', o) := fire i r1 w in
      match r' with
      | Settled (Rejected e) => let '(r2, o2) := start (f e) in (r2, w', o ++ o2)
      | Settled x => (Settled x, w', o)
      | _ => (RunChainRej f r', w', o)
      end
  | RunRace a b =>
      let n := length (inflight a) in
      if i <? n then
        let '(a', w', o) := fire i a w in
        match a' with
        | Settled x => (Settled x, w', o ++ inflight b)
        | _ => (RunRace a' b, w', o)
        end
      else
        let '(b', w', o) := fire (i - n) b w in
        match b' with
        | Settled x => (Settled x, w', o ++ inflight a)
        | _ => (RunRace a b', w', o)
        end
  | RunParallel max started queue =>
      let '(started', w', o) := fireSlots fire i started w in
      let '(started'', queue', o1) := drain start max started' queue o in
      let '(r', o2) := settleParallel max started'' queue' in
      (r', w', o1 ++ o2)
  end.

(** The event loop: the computation being run, the file system, the
    abandoned calls that are still in flight (a cancellation function
    that does nothing does not stop the call it belongs to), and the
    cancellation functions called so far. *)
Record Machine : Type := mkMachine {
  run : Running;
  world : World;
  orphans : list IOop;
  cancelled : list Cancel
}.

Definition boot (m : Future) (w : World) : Machine :=
  let '(r, o) := start m in
  mkMachine r w (List.map fst o) (List.map snd o).

(** One turn of the loop: the choice [k] picks, among all calls in
    flight, the one that completes now. *)
Definition step (k : nat) (s : Machine) : Machine :=
  let live := length (inflight (run s)) in
  let total := live + length (orphans s) in
  if total =? 0 then s
  else
    let i := k mod total in
    if i <? live then
      let '(r', w', o) := fire i (run s) (world s) in
      mkMachine r' w' (orphans s ++ List.map fst o) (cancelled s ++ List.map snd o)
    else
      match orphans s !! (i - live) with
      | Some op =>
          mkMachine (run s) (perform op (world s)).2
            (delete (i - live) (orphans s)) (cancelled s)
      | None => s
      end.

Definition exec (schedule : list nat) (s : Machine) : Machine :=
  fold_left (fun s k => step k s) schedule s.

(** What [fork] has delivered so far. *)
Definition outcome (s : Machine) : option Outcome :=
  match run s with
  | Settled o => Some o
  | _ => None
  end.

End EventLoop.

(** A JavaScript value that may be a Future ([def] of [findFile]). *)
Inductive Any : Type :=
| Plain (v : Value)
| Fut (m : Future).

(** The functions [fs.js] imports from [fluture]. *)
Module Fluture.

Definition map (f : Value -> Throwing Value) (m : Future) : Future := Map f m.
Definition mapRej (f : Value -> Throwing Value) (m : Future) : Future := MapRej f m.
Definition chain (f : Value -> Future) (m : Future) : Future := Chain f m.
Definition chainRej (f : Value -> Future) (m : Future) : Future := ChainRej f m.
Definition race (left right : Future) : Future := Race left right.

Definition isFuture (a : Any) : bool :=
  match a with
  | Fut _ => true
  | Plain _ => false
  end.

(** [parallel(max)] throws unless [max] is a positive integer. *)
Definition parallel (max : Value) : Throwing (list Future -> Future) :=
  match max with
  | VNum n =>
      if (0 <? n)%Z then Return (Parallel (Z.to_nat n))
      else Throw (TypeError "parallel() expects its first argument to be a positive Integer")
  | _ => Throw (TypeError "parallel() expects its first argument to be a positive Integer")
  end.

End Fluture.

(** ** [src/fs.js] *)

Section Destined.
Context {host : Host}.

Definition localize (z : string) : string := "." +:+ sep +:+ z.

Definition readFileWithFormatAndCancel (cancel : Cancel) (format : Value) (x : string)
  : Future :=
  Computation (ReadFile x format)
    (fun res => match res with
                | Failed err => Rejected err
                | Done data => Resolved data
                end)
    cancel.

Definition readFileWithCancel (cancel : Cancel) : string -> Future :=
  readFileWithFormatAndCancel cancel (VStr "utf8").

Definition readFile : string -> Future := readFileWithCancel NO_OP.

(** [JSON.parse] as [map] calls it on what the read delivered. *)
Definition parseJSON (data : Value) : Throwing Value :=
  match data with
  | VStr text => JSON_parse text
  | _ => Throw (VError "SyntaxError" "Unexpected token")
  end.

Definition readJSONFileWithCancel (cancel : Cancel) (x : string) : Future :=
  Fluture.map parseJSON (readFileWithCancel cancel x).

Definition readJSONFile : string -> Future := readJSONFileWithCancel NO_OP.

(** [try { glob(g, conf).catch(bad).then(good) } catch (e) { bad(e) }]:
    an exception of the call, and the [TypeError] of calling [.catch]
    on something that has none, reject at once; a rejected promise
    calls [bad] first, the later [good(undefined)] is ignored. *)
Definition readDirWithConfigAndCancel (cancel : Cancel) (conf : Obj) (g : string)
  : Future :=
  match glob g conf with
  | GlobThrows e => Immediate (Rejected e) cancel
  | GlobValue v =>
      Immediate
        (Rejected (TypeError (if isNil v
                              then "Cannot read properties of undefined (reading 'catch')"
                              else "glob(...).catch is not a function")))
        cancel
  | GlobPromise settle =>
      Computation (AwaitGlob settle)
        (fun res => match res with
                    | Failed err => Rejected err
                    | Done matches => Resolved matches
                    end)
        cancel
  end.

Definition readDirWithConfig : Obj -> string -> Future :=
  readDirWithConfigAndCancel NO_OP.

Definition readDir : string -> Future := readDirWithConfig ∅.

Definition writeFileWithConfigAndCancel (cancel : Cancel) (conf : Obj)
  (file content : string) : Future :=
  Computation (WriteFile file content conf)
    (fun res => match res with
                | Failed e => Rejected e
                | Done _ => Resolved (VStr content)
                end)
    cancel.

Definition writeFileWithConfig : Obj -> string -> string -> Future :=
  writeFileWithConfigAndCancel NO_OP.

Definition writeFile : string -> string -> Future :=
  writeFileWithConfig {[ "encoding" := VStr "utf8" ]}.

Definition removeFileWithConfigAndCancel (cancel : Cancel) (options : Obj) (fd : string)
  : Future :=
  Computation (Rm fd options)
    (fun res => match res with
                | Failed err => Rejected err
                | Done _ => Resolved (VStr fd)
                end)
    cancel.

Definition removeFileWithConfig : Obj -> string -> Future :=
  removeFileWithConfigAndCancel NO_OP.
Definition rm : string -> Future := removeFileWithConfig ∅.
Definition removeFile : string -> Future := rm.
Definition rimraf : string -> Future :=
  removeFileWithConfig {[ "force" := VBool true; "recursive" := VBool true ]}.

Definition DEFAULT_REMOVAL_CONFIG : Obj :=
  {[ "force" := VBool false; "maxRetries" := VNum 0; "recursive" := VBool false;
     "retryDelay" := VNum 100; "parallel" := VNum 10 ]}.

(** [pipe(map(removeFileWithConfigAndCancel(cancel, without([`parallel`], conf))),
         parallel(propOr(10, `parallel`, conf)))(list)];
    [parallel(...)] is evaluated, and may throw, when the pipeline is
    built. *)
Definition removeFilesWithConfigAndCancel (cancel : Cancel) (conf : Obj)
  (list : list string) : Throwing Future :=
  match Fluture.parallel (R.propOr (VNum 10) "parallel" conf) with
  | Return inParallel =>
      Return
        (inParallel
           (List.map
              (removeFileWithConfigAndCancel cancel (R.without [VStr "parallel"] conf))
              list))
  | Throw e => Throw e
  end.

Definition removeFilesWithConfig : Obj -> list string -> Throwing Future :=
  removeFilesWithConfigAndCancel NO_OP.

Definition removeFiles : list string -> Throwing Future :=
  removeFilesWithConfig DEFAULT_REMOVAL_CONFIG.

Definition mkdirWithCancel (cancel : Cancel) (conf : Obj) (x : string) : Future :=
  Computation (Mkdir x conf)
    (fun res => match res with
                | Failed err => Rejected err
                | Done _ => Resolved (VStr x)
                end)
    cancel.

Definition mkdir : Obj -> string -> Future := mkdirWithCancel NO_OP.
Definition mkdirp : string -> Future := mkdir {[ "recursive" := VBool true ]}.

(** [fs.constants.F_OK] and [fs.constants.R_OK]. *)
Definition F_OK : Z := 0.
Definition R_OK : Z := 4.

Definition access (permissions : Z) (filePath : string) : Future :=
  Computation (Access filePath permissions)
    (fun res => match res with
                | Failed err => Rejected err
                | Done _ => Resolved (VBool true)
                end)
    NO_OP.

(** [exists] in the source (a keyword here). *)
Definition exists_ : string -> Future := access F_OK.
Definition readable : string -> Future := access R_OK.

Definition directoryOnly (filePath : string) : string :=
  slice filePath 0 (lastIndexOf filePath "/").

Definition writeFileWithAutoPath (filePath content : string) : Future :=
  let dir := directoryOnly filePath in
  Fluture.chain (fun _ => writeFile filePath content)
    (Fluture.chainRej (fun _ => mkdirp dir) (exists_ dir)).

Definition findFile (fn : string -> Future) (def : Any) (x : list string) : Any :=
  R.reduce
    (fun a b => match a with
                | Fut fa => Fut (Fluture.race fa b)
                | Plain _ => Fut b
                end)
    def
    (List.map (fun c => Fluture.mapRej (fun e => Return (R.F e)) (fn c)) x).

Definition readAnyOr (def : Any) (format : Value) (x : list string) : Any :=
  findFile readFile def x.

Definition readAny : Value -> list string -> Any := readAnyOr (Plain VNull).

Definition requireAnyOr : Any -> list string -> Any := findFile readable.

End Destined.

(** ** The states of a batch removal *)

(** The shapes the event loop goes through while it runs
    [parallel(max)] over removals that share their [options]. *)
Section BatchShape.
Variables (cancel : Cancel) (options : Obj) (max : nat).

(** The removal of [fd] with its call in flight. *)
Definition removalPending (fd : string) : Running :=
  Pending (Rm fd options)
    (fun res => match res with
                | Failed err => Rejected err
                | Done _ => Resolved (VStr fd)
                end)
    cancel.

Inductive removalSlot : Running -> Prop :=
| slot_settled (o : Outcome) : removalSlot (Settled o)
| slot_pending (fd : string) : removalSlot (removalPending fd).

Definition removalFuture (m : Future) : Prop :=
  exists fd, m = removeFileWithConfigAndCancel cancel options fd.

Definition removalCall (op : IOop) : Prop := exists fd, op = Rm fd options.

(** Either the batch is running: every started member is settled or
    has its call in flight, none has failed, and at most [max] are
    running; or it has settled, and the abandoned calls are removals,
    at most [max] of them. *)
Inductive Batch : Machine -> Prop :=
| batch_running (started : list Running) (queue : list Future) (w : World)
    (log : list Cancel) :
    Forall removalSlot started ->
    firstFailure started = None ->
    countRunning started <= max ->
    Forall removalFuture queue ->
    Batch (mkMachine (RunParallel max started queue) w [] log)
| batch_settled (o : Outcome) (w : World) (abandoned : list IOop) (log : list Cancel) :
    Forall removalCall abandoned ->
    length abandoned <= max ->
    Batch (mkMachine (Settled o) w abandoned log).

End BatchShape.

(** ** Paths that name nothing *)

(** A path that names nothing: what a call on it reports as [ENOENT]. *)
Definition absent (w : World) (x : string) : bool :=
  match resolve w x with
  | inr q =>
      match lookupNode (tree w) q with
      | None => true
      | Some _ => false
      end
  | inl ENOENT => true
  | inl _ => false
  end.

(** A path whose last component is a name (not empty, [.] or [..]):
    the paths that name an entry of a directory.  A trailing slash or
    dot makes [rmdir], [mkdir] and [open] treat the path in ways of
    their own, which the calls above do not follow. *)
Definition endsInName (x : string) : bool :=
  isName (List.last (splitSlash x) "").

(** ** The states of a lookup *)

(** The shapes [findFile] gives the event loop when its probe wraps
    one call per candidate. *)
Section LookupShape.
Variables (op : string -> IOop) (callback : string -> Completion -> Outcome)
  (cancel : Cancel).

(** The probe of the candidate [c], and the same once started. *)
Definition probe (c : string) : Future := Computation (op c) (callback c) cancel.

Definition probing (c : string) : Running :=
  RunMapRej (fun e => Return (R.F e)) (Pending (op c) (callback c) cancel).

(** The race of the probes of [c :: cs], started. *)
Definition racing (c : string) (cs : list string) : Running :=
  fold_left (fun r c' => RunRace r (probing c')) cs (probing c).

(** What the lookup makes of the completion of the call of [c]. *)
Definition verdict (c : string) (res : Completion) : Outcome :=
  match callback c res with
  | Rejected _ => Rejected (VBool false)
  | o => o
  end.

End LookupShape.

(** ** The batch removal, member by member *)

(** What is left to do of a [parallel]: the members that are running
    and those that have not been started. *)
Definition remaining (s : Machine) : nat :=
  match run s with
  | RunParallel _ started queue => countRunning started + length queue
  | _ => 0
  end.

Section BatchOrder.
Variables (cancel : Cancel) (options : Obj) (max : nat).

(** The member of the path [fd] in a batch that has not failed: its
    call is in flight, or it has resolved with [fd]. *)
Inductive removalOf : string -> Running -> Prop :=
| removal_waiting (fd : string) : removalOf fd (removalPending cancel options fd)
| removal_done (fd : string) : removalOf fd (Settled (Resolved (VStr fd))).

(** The slots after a refill: no room is left while members wait. *)
Definition Refilled (ps1 : list string) (started : list Running) (ps2 : list string)
  : Prop :=
  Forall2 removalOf ps1 started
  /\ countRunning started <= max
  /\ (ps2 <> [] -> countRunning started = max).

(** The batch over [paths], in order: while it runs, the started
    members stand for a prefix of [paths], one each, and the queue
    for the rest; once it has settled, a resolution carries the paths
    in the order of the input. *)
Inductive Ordered (paths : list string) : Machine -> Prop :=
| ordered_running (ps1 ps2 : list string) (started : list Running) (w : World)
    (log : list Cancel) :
    paths = ps1 ++ ps2 ->
    Refilled ps1 started ps2 ->
    0 < countRunning started ->
    Ordered paths
      (mkMachine
         (RunParallel max started
            (List.map (removeFileWithConfigAndCancel cancel options) ps2))
         w [] log)
| ordered_settled (o : Outcome) (w : World) (abandoned : list IOop) (log : list Cancel) :
    (forall v, o = Resolved v -> v = VArr (List.map VStr paths)) ->
    Ordered paths (mkMachine (Settled o) w abandoned log).

End BatchOrder.

(** ** The batch removal, entry by entry *)

(** A member that has resolved with its path has left nothing at
    that path. *)
Definition sweptSlot (w : World) (r : Running) : Prop :=
  forall fd, r = Settled (Resolved (VStr fd)) -> absent w fd = true.

(** The same of the whole batch, running or resolved. *)
Definition Swept (s : Machine) : Prop :=
  match run s with
  | RunParallel _ started _ => Forall (sweptSlot (world s)) started
  | Settled (Resolved (VArr vs)) =>
      Forall (fun v => forall fd, v = VStr fd -> absent (world s) fd = true) vs
  | _ => True
  end.

(** ** A reference host *)

(** A concrete platform to run the model on: POSIX separator, Node's
    codecs for text in U+0000..U+00FF (one [ascii] per character), a
    JSON parser for the integer fragment of JSON, and a promise-style
    [glob] that knows no wildcards. *)
Module Reference.

Definition code (a : ascii) : nat := nat_of_ascii a.
Definition char (n : nat) : ascii := ascii_of_nat n.
Definition byte (n : nat) : Byte.byte := Ascii.byte_of_ascii (ascii_of_nat n).
Definition unbyte (b : Byte.byte) : nat := nat_of_ascii (Ascii.ascii_of_byte b).

Definition chars (s : string) : list nat := List.map code (list_ascii_of_string s).
Definition text (ns : list nat) : string := string_of_list_ascii (List.map char ns).

(** U+FFFD is outside the text of this host; "?" stands for it. *)
Definition replacement : nat := 63.

Definition utf8Encode (s : string) : list Byte.byte :=
  flat_map (fun n => if n <? 128 then [byte n]
                     else [byte (192 + n / 64); byte (128 + n mod 64)])
    (chars s).

Fixpoint utf8Units (bs : list nat) : list nat :=
  match bs with
  | [] => []
  | n :: rest =>
      if n <? 128 then n :: utf8Units rest
      else
        match rest with
        | n2 :: rest' =>
            if ((n =? 194) || (n =? 195)) && (128 <=? n2) && (n2 <? 192)
            then ((n - 192) * 64 + (n2 - 128)) :: utf8Units rest'
            else replacement :: utf8Units rest
        | [] => [replacement]
        end
  end.

Fixpoint utf16Units (bs : list nat) : list nat :=
  match bs with
  | lo :: hi :: rest => (if hi =? 0 then lo else replacement) :: utf16Units rest
  | _ => []
  end.

Definition hexDigit (n : nat) : nat := if n <? 10 then 48 + n else 87 + n.

Definition hexValue (c : nat) : option nat :=
  if (48 <=? c) && (c <? 58) then Some (c - 48)
  else if (97 <=? c) && (c <? 103) then Some (c - 87)
  else if (65 <=? c) && (c <? 71) then Some (c - 55)
  else None.

Fixpoint hexBytes (cs : list nat) : list nat :=
  match cs with
  | a :: b :: rest =>
      match hexValue a, hexValue b with
      | Some x, Some y => (16 * x + y) :: hexBytes rest
      | _, _ => []
      end
  | _ => []
  end.

Definition base64Char (url : bool) (v : nat) : nat :=
  if v <? 26 then 65 + v
  else if v <? 52 then 71 + v
  else if v <? 62 then v - 4
  else if v =? 62 then (if url then 45 else 43)
  else (if url then 95 else 47).

Definition base64Value (c : nat) : option nat :=
  if (65 <=? c) && (c <? 91) then Some (c - 65)
  else if (97 <=? c) && (c <? 123) then Some (c - 71)
  else if (48 <=? c) && (c <? 58) then Some (c + 4)
  else if (c =? 43) || (c =? 45) then Some 62
  else if (c =? 47) || (c =? 95) then Some 63
  else None.

Fixpoint toBase64 (url : bool) (bs : list nat) : list nat :=
  match bs with
  | a :: b :: c :: rest =>
      base64Char url (a / 4) :: base64Char url ((a mod 4) * 16 + b / 16)
      :: base64Char url ((b mod 16) * 4 + c / 64) :: base64Char url (c mod 64)
      :: toBase64 url rest
  | [a; b] =>
      [base64Char url (a / 4); base64Char url ((a mod 4) * 16 + b / 16);
       base64Char url ((b mod 16) * 4)] ++ (if url then [] else [61])
  | [a] =>
      [base64Char url (a / 4); base64Char url ((a mod 4) * 16)]
      ++ (if url then [] else [61; 61])
  | [] => []
  end.

Fixpoint fromSextets (vs : list nat) : list nat :=
  match vs with
  | a :: b :: c :: d :: rest =>
      (a * 4 + b / 16) :: ((b mod 16) * 16 + c / 4) :: ((c mod 4) * 64 + d)
      :: fromSextets rest
  | [a; b; c] => [a * 4 + b / 16; (b mod 16) * 16 + c / 4]
  | [a; b] => [a * 4 + b / 16]
  | _ => []
  end.

Fixpoint sextets (cs : list nat) : list nat :=
  match cs with
  | [] => []
  | c :: rest =>
      match base64Value c with
      | Some v => v :: sextets rest
      | None => if c =? 61 then [] else sextets rest
      end
  end.

(** [Buffer.from(s, enc)] *)
Definition encode (enc : Encoding) (s : string) : list Byte.byte :=
  match enc with
  | Utf8 => utf8Encode s
  | Utf16le => flat_map (fun n => [byte n; byte 0]) (chars s)
  | Latin1 | Ascii7 => List.map byte (chars s)
  | Hex => List.map byte (hexBytes (chars s))
  | Base64 | Base64url => List.map byte (fromSextets (sextets (chars s)))
  end.

(** [buf.toString(enc)] *)
Definition decode (enc : Encoding) (data : list Byte.byte) : string :=
  let bs := List.map unbyte data in
  match enc with
  | Utf8 => text (utf8Units bs)
  | Utf16le => text (utf16Units bs)
  | Latin1 => text bs
  | Ascii7 => text (List.map (fun n => n mod 128) bs)
  | Hex => text (flat_map (fun n => [hexDigit (n / 16); hexDigit (n mod 16)]) bs)
  | Base64 => text (toBase64 false bs)
  | Base64url => text (toBase64 true bs)
  end.

(** *** JSON *)

Definition isSpace (a : ascii) : bool :=
  let n := code a in (n =? 32) || (n =? 9) || (n =? 10) || (n =? 13).

Definition isDigit (a : ascii) : bool :=
  let n := code a in (48 <=? n) && (n <? 58).

Fixpoint skipSpace (s : list ascii) : list ascii :=
  match s with
  | a :: rest => if isSpace a then skipSpace rest else s
  | [] => []
  end.

Fixpoint stripPrefix (lit : list ascii) (s : list ascii) : option (list ascii) :=
  match lit, s with
  | [], _ => Some s
  | a :: lit', b :: s' => if Ascii.eqb a b then stripPrefix lit' s' else None
  | _ :: _, [] => None
  end.

Fixpoint digits (acc : Z) (s : list ascii) : Z * list ascii :=
  match s with
  | a :: rest =>
      if isDigit a then digits (10 * acc + Z.of_nat (code a - 48)) rest
      else (acc, s)
  | [] => (acc, [])
  end.

(** An integer literal: no sign but "-", no leading zero, and no
    fraction or exponent in this fragment. *)
Definition number (s : list ascii) : option (Z * list ascii) :=
  let '(negative, body) :=
    match s with
    | a :: rest => if Ascii.eqb a "-" then (true, rest) else (false, s)
    | [] => (false, s)
    end in
  match body with
  | d :: rest =>
      if isDigit d then
        let '(n, rest') := digits 0 body in
        let leadingZero :=
          Ascii.eqb d "0" && match rest with
                             | d2 :: _ => isDigit d2
                             | [] => false
                             end in
        let continues :=
          match rest' with
          | c :: _ => Ascii.eqb c "." || Ascii.eqb c "e" || Ascii.eqb c "E"
          | [] => false
          end in
        if leadingZero || continues then None
        else Some (if negative then (- n)%Z else n, rest')
      else None
  | [] => None
  end.

(** The characters of a string literal after its opening quote. *)
Fixpoint stringBody (s : list ascii) : option (string * list ascii) :=
  match s with
  | [] => None
  | a :: rest =>
      if Ascii.eqb a "034" then Some (EmptyString, rest)
      else if code a <? 32 then None
      else if Ascii.eqb a "\" then
        match rest with
        | e :: rest' =>
            let unescaped :=
              if Ascii.eqb e "034" then Some "034"%char
              else if Ascii.eqb e "\" then Some "\"%char
              else if Ascii.eqb e "/" then Some "/"%char
              else if Ascii.eqb e "b" then Some "008"%char
              else if Ascii.eqb e "f" then Some "012"%char
              else if Ascii.eqb e "n" then Some "010"%char
              else if Ascii.eqb e "r" then Some "013"%char
              else if Ascii.eqb e "t" then Some "009"%char
              else None in
            match unescaped, stringBody rest' with
            | Some c, Some (tail, rest'') => Some (String c tail, rest'')
            | _, _ => None
            end
        | [] => None
        end
      else
        match stringBody rest with
        | Some (tail, rest') => Some (String a tail, rest')
        | None => None
        end
  end.

Fixpoint value (fuel : nat) (s : list ascii) : option (Value * list ascii) :=
  match fuel with
  | 0 => None
  | S fuel' =>
      match skipSpace s with
      | [] => None
      | a :: rest =>
          if Ascii.eqb a "034" then
            match stringBody rest with
            | Some (str, rest') => Some (VStr str, rest')
            | None => None
            end
          else if Ascii.eqb a "[" then
            match skipSpace rest with
            | b :: rest' =>
                if Ascii.eqb b "]" then Some (VArr [], rest')
                else elements fuel' rest []
            | [] => None
            end
          else if Ascii.eqb a "{" then
            match skipSpace rest with
            | b :: rest' =>
                if Ascii.eqb b "}" then Some (VObj ∅, rest')
                else members fuel' rest ∅
            | [] => None
            end
          else
            match stripPrefix (list_ascii_of_string "null") (a :: rest),
                  stripPrefix (list_ascii_of_string "true") (a :: rest),
                  stripPrefix (list_ascii_of_string "false") (a :: rest) with
            | Some rest', _, _ => Some (VNull, rest')
            | _, Some rest', _ => Some (VBool true, rest')
            | _, _, Some rest' => Some (VBool false, rest')
            | None, None, None =>
                match number (a :: rest) with
                | Some (n, rest') => Some (VNum n, rest')
                | None => None
                end
            end
      end
  end
with elements (fuel : nat) (s : list ascii) (acc : list Value)
  : option (Value * list ascii) :=
  match fuel with
  | 0 => None
  | S fuel' =>
      match value fuel' s with
      | Some (v, rest) =>
          match skipSpace rest with
          | c :: rest' =>
              if Ascii.eqb c "," then elements fuel' rest' (acc ++ [v])
              else if Ascii.eqb c "]" then Some (VArr (acc ++ [v]), rest')
              else None
          | [] => None
          end
      | None => None
      end
  end
with members (fuel : nat) (s : list ascii) (acc : Obj)
  : option (Value * list ascii) :=
  match fuel with
  | 0 => None
  | S fuel' =>
      match skipSpace s with
      | q :: rest =>
          if Ascii.eqb q "034" then
            match stringBody rest with
            | Some (key, rest1) =>
                match skipSpace rest1 with
                | c :: rest2 =>
                    if Ascii.eqb c ":" then
                      match value fuel' rest2 with
                      | Some (v, rest3) =>
                          match skipSpace rest3 with
                          | d :: rest4 =>
                              if Ascii.eqb d "," then members fuel' rest4 (<[key := v]> acc)
                              else if Ascii.eqb d "}" then Some (VObj (<[key := v]> acc), rest4)
                              else None
                          | [] => None
                          end
                      | None => None
                      end
                    else None
                | [] => None
                end
            | None => None
            end
          else None
      | [] => None
      end
  end.

Definition syntaxError (source : string) : Value :=
  VError "SyntaxError" ("Unexpected token in JSON: " +:+ source).

Definition JSON_parse (source : string) : Throwing Value :=
  let s := list_ascii_of_string source in
  match value (2 * length s + 2) s with
  | Some (v, rest) =>
      match skipSpace rest with
      | [] => Return v
      | _ :: _ => Throw (syntaxError source)
      end
  | None => Throw (syntaxError source)
  end.

(** *** glob *)

(** The promise-style entry point, for patterns without wildcards:
    the pattern matches the path it spells, when that exists. *)
Definition glob (g : string) (conf : Obj) : GlobCall :=
  GlobPromise
    (fun w =>
       match resolve w g with
       | inr q =>
           match lookupNode (tree w) q with
           | Some _ => Done (VArr [VStr g])
           | None => Done (VArr [])
           end
       | inl _ => Done (VArr [])
       end).

Definition host : Host :=
  Build_Host "/" encode decode JSON_parse glob.

(** The double quote, and [{"a":1}]. *)
Definition quote : string := String "034" EmptyString.
Definition sampleJSON : string := "{" +:+ quote +:+ "a" +:+ quote +:+ ":1}".

(** A file system with the text file [a.txt], a file of JSON, one of
    broken JSON, and a regular file called [notes]; and an empty one.
    The working directory is the root. *)
Definition disk : World :=
  mkWorld
    {[ ["a.txt"] := File (encode Utf8 "hi");
       ["ok.json"] := File (encode Utf8 sampleJSON);
       ["bad.json"] := File (encode Utf8 "{oops");
       ["notes"] := File [] ]}
    [].

Definition blank : World := mkWorld ∅ [].

End Reference.

(** A directory [d] holding the file [f], beside a file [e]. *)
Module Sample.

Definition shelf : World :=
  mkWorld {[ ["d"] := Dir; ["d"; "f"] := File []; ["e"] := File [] ]} [].

End Sample.

(** * Properties *)

(** ** Strings and paths *)

Lemma append_empty (s : string) : EmptyString +:+ s = s.
Proof. reflexivity. Qed.

Lemma append_String (a : ascii) (s t : string) : String a s +:+ t = String a (s +:+ t).
Proof. reflexivity. Qed.

Lemma length_append (s t : string) :
  String.length (s +:+ t) = String.length s + String.length t.
Proof.
  induction s as [|a s IH]; [reflexivity|].
  rewrite append_String. cbn [String.length]. now rewrite IH.
Qed.

Lemma lastIndexOf_from_absent (c : ascii) (s : string) (i found : Z) :
  includes c s = false -> lastIndexOf_from c s i found = found.
Proof.
  revert i found. induction s as [|a s IH]; intros i found H; simpl in *.
  - reflexivity.
  - apply orb_false_iff in H as [Ha Hs]. rewrite Ha. now apply IH.
Qed.

Lemma lastIndexOf_from_last (c : ascii) (d rest : string) (i found : Z) :
  includes c rest = false ->
  lastIndexOf_from c (d +:+ String c rest) i found = (i + Z.of_nat (String.length d))%Z.
Proof.
  revert i found. induction d as [|a d IH]; intros i found H.
  - rewrite append_empty. cbn [String.length lastIndexOf_from]. rewrite Ascii.eqb_refl.
    rewrite lastIndexOf_from_absent by assumption. cbn; lia.
  - rewrite append_String. cbn [String.length lastIndexOf_from].
    rewrite IH by assumption. lia.
Qed.

Lemma substring_prefix (d rest : string) :
  substring 0 (String.length d) (d +:+ rest) = d.
Proof.
  induction d as [|a d IH].
  - rewrite append_empty. now destruct rest.
  - rewrite append_String. cbn. now rewrite IH.
Qed.

Lemma substring_dropLast (s : string) :
  substring 0 (String.length s - 1) s = dropLast s.
Proof.
  induction s as [|a s IH]; [reflexivity|].
  destruct s as [|b s]; [reflexivity|].
  cbn [String.length Nat.sub] in *. rewrite Nat.sub_0_r in *.
  cbn [substring dropLast]. f_equal. exact IH.
Qed.

Lemma slice_prefix (d rest : string) :
  slice (d +:+ rest) 0 (Z.of_nat (String.length d)) = d.
Proof.
  unfold slice. rewrite length_append.
  replace (0 <? 0)%Z with false by reflexivity.
  destruct (Z.ltb_spec (Z.of_nat (String.length d)) 0) as [Hneg|_]; [lia|].
  replace (Z.to_nat (Z.min 0 _)) with 0 by lia.
  match goal with |- substring 0 ?n _ = _ =>
    replace n with (String.length d) by lia end.
  apply substring_prefix.
Qed.

Lemma slice_dropLast (s : string) : slice s 0 (-1) = dropLast s.
Proof.
  unfold slice. replace (0 <? 0)%Z with false by reflexivity.
  replace (-1 <? 0)%Z with true by reflexivity.
  replace (Z.to_nat (Z.min 0 _)) with 0 by lia.
  match goal with |- substring 0 ?n _ = _ =>
    replace n with (String.length s - 1) by lia end.
  apply substring_dropLast.
Qed.

Lemma splitSlash_nonempty (s : string) : splitSlash s <> [].
Proof.
  induction s as [|a s IH]; cbn; [discriminate|].
  destruct (Ascii.eqb a "/"); [discriminate|].
  destruct (splitSlash s); discriminate.
Qed.

Lemma splitSlash_bare (s : string) : includes "/" s = false -> splitSlash s = [s].
Proof.
  induction s as [|a s IH]; intros H; cbn in *; [reflexivity|].
  apply orb_false_iff in H as [Ha Hs]. rewrite Ha, (IH Hs). reflexivity.
Qed.

Lemma splitSlash_last (d base : string) :
  includes "/" base = false ->
  splitSlash (d +:+ String "/" base) = splitSlash d ++ [base].
Proof.
  intros H. induction d as [|a d IH].
  - rewrite append_empty. cbn. now rewrite splitSlash_bare.
  - rewrite append_String. cbn [splitSlash]. rewrite IH.
    destruct (Ascii.eqb a "/"); [reflexivity|].
    pose proof (splitSlash_nonempty d) as Hne.
    destruct (splitSlash d) as [|x xs]; [contradiction|]. reflexivity.
Qed.

Lemma startsWith_app (c : ascii) (d rest : string) :
  d <> EmptyString -> startsWith c (d +:+ rest) = startsWith c d.
Proof. destruct d; [contradiction | reflexivity]. Qed.

Lemma directoryOnly_bare (p : string) :
  includes "/" p = false -> directoryOnly p = dropLast p.
Proof.
  intros H. unfold directoryOnly, lastIndexOf.
  rewrite lastIndexOf_from_absent by assumption. apply slice_dropLast.
Qed.

Lemma directoryOnly_split (dir base : string) :
  includes "/" base = false -> directoryOnly (dir +:+ String "/" base) = dir.
Proof.
  intros H. unfold directoryOnly, lastIndexOf.
  rewrite lastIndexOf_from_last by assumption. apply slice_prefix.
Qed.

(** ** The file system *)

Lemma lookupNode_mono (t t' : gmap (list string) Node) (q : list string) (n : Node) :
  t ⊆ t' -> lookupNode t q = Some n -> lookupNode t' q = Some n.
Proof.
  destruct q as [|c q]; simpl; [done|].
  intros Hsub H. eapply lookup_weaken; eauto.
Qed.

Lemma lookupNode_insert_eq (t : gmap (list string) Node) (q : list string) (n : Node) :
  q <> [] -> lookupNode (<[q := n]> t) q = Some n.
Proof. destruct q; [done|]. intros _. simpl. apply lookup_insert_eq. Qed.

Lemma lookupNode_insert_ne (t : gmap (list string) Node) (q q' : list string) (n : Node) :
  q <> q' -> lookupNode (<[q := n]> t) q' = lookupNode t q'.
Proof. intros Hne. destruct q'; [done|]. simpl. now apply lookup_insert_ne. Qed.

Lemma stepInto_name (cur : list string) (c : string) :
  isName c = true -> stepInto cur c = cur ++ [c].
Proof.
  unfold isName, stepInto. intros H.
  apply negb_true_iff, orb_false_iff in H as [H1 H3].
  rewrite H1, H3. reflexivity.
Qed.

Lemma walk_app (t : gmap (list string) Node) (cur : list string) (cs : list string)
  (c : string) :
  walk t cur (cs ++ [c]) =
  match walk t cur cs with
  | inr q =>
      match lookupNode t q with
      | Some Dir => inr (stepInto q c)
      | Some (File _) => inl ENOTDIR
      | None => inl ENOENT
      end
  | inl e => inl e
  end.
Proof.
  revert cur. induction cs as [|c' cs IH]; intros cur; simpl.
  - destruct (lookupNode t cur) as [[]|]; reflexivity.
  - destruct (lookupNode t cur) as [[]|]; auto.
Qed.

Lemma walk_mono (t t' : gmap (list string) Node) (cur : list string) (cs : list string)
  (q : list string) :
  t ⊆ t' -> walk t cur cs = inr q -> walk t' cur cs = inr q.
Proof.
  intros Hsub. revert cur. induction cs as [|c cs IH]; intros cur; simpl; [done|].
  destruct (lookupNode t cur) as [[]|] eqn:Hcur; try discriminate.
  rewrite (lookupNode_mono _ _ _ _ Hsub Hcur). apply IH.
Qed.

Lemma walk_start_present (t : gmap (list string) Node) (cur : list string)
  (cs : list string) (q : list string) (n : Node) :
  walk t cur cs = inr q -> lookupNode t q = Some n -> is_Some (lookupNode t cur).
Proof.
  destruct cs as [|c cs]; simpl.
  - intros [= ->] H. eauto.
  - destruct (lookupNode t cur) as [[]|]; try discriminate. eauto.
Qed.

(** A successful [mkdir -p] only adds entries, and leaves the path it
    was given resolving to a directory. *)
Lemma mkdirs_walk (t : gmap (list string) Node) (cur : list string) (cs : list string)
  (t' : gmap (list string) Node) (d : list string) :
  mkdirs t cur cs = inr (t', d) ->
  t ⊆ t' /\ walk t' cur cs = inr d /\ lookupNode t' d = Some Dir.
Proof.
  revert t cur. induction cs as [|c cs IH]; intros t cur; simpl.
  - destruct (lookupNode t cur) as [[]|] eqn:Hcur; try discriminate.
    intros [= <- <-]. auto.
  - destruct (lookupNode t cur) as [[]|] eqn:Hcur; try discriminate.
    intros H. apply IH in H as (Hsub & Hwalk & Hdir).
    assert (Hstep : t ⊆ t').
    { etrans; [|exact Hsub].
      destruct (lookupNode t (stepInto cur c)) eqn:Hnext; [done|].
      destruct (isName c); [|done].
      apply insert_subseteq.
      destruct (stepInto cur c); [discriminate | exact Hnext]. }
    split; [exact Hstep|].
    rewrite (lookupNode_mono _ _ _ _ Hstep Hcur). auto.
Qed.

(** Where the path already resolves, [mkdir -p] creates nothing. *)
Lemma mkdirs_present (t : gmap (list string) Node) (cur : list string)
  (cs : list string) (q : list string) (n : Node) :
  walk t cur cs = inr q -> lookupNode t q = Some n ->
  mkdirs t cur cs = match n with
                    | Dir => inr (t, q)
                    | File _ => inl EEXIST
                    end.
Proof.
  revert cur. induction cs as [|c cs IH]; intros cur; simpl.
  - intros [= ->] ->. now destruct n.
  - destruct (lookupNode t cur) as [[]|] eqn:Hcur; try discriminate.
    intros Hwalk Hq.
    destruct (walk_start_present _ _ _ _ _ Hwalk Hq) as [m Hm].
    rewrite Hm. now apply IH.
Qed.

(** From an existing directory, [mkdir -p] of a chain of names
    succeeds as long as no regular file has one of the names on the
    way, however many of the directories are missing. *)
Lemma mkdirs_names (t : gmap (list string) Node) (cur : list string) (cs : list string) :
  Forall (fun c => isName c = true) cs ->
  lookupNode t cur = Some Dir ->
  (forall k data, lookupNode t (cur ++ take k cs) <> Some (File data)) ->
  exists t', mkdirs t cur cs = inr (t', cur ++ cs).
Proof.
  intros Hnames. revert t cur.
  induction Hnames as [|c cs Hc _ IH]; intros t cur Hcur Hfree; cbn [mkdirs].
  - rewrite Hcur, app_nil_r. eauto.
  - rewrite Hcur, Hc, (stepInto_name cur c Hc).
    replace (cur ++ c :: cs) with ((cur ++ [c]) ++ cs) by now rewrite <- app_assoc.
    assert (Hnext : cur ++ [c] <> []) by now destruct cur.
    apply IH.
    + destruct (lookupNode t (cur ++ [c])) as [[data|]|] eqn:Hn.
      * exfalso. apply (Hfree 1 data). now destruct cs.
      * exact Hn.
      * now apply lookupNode_insert_eq.
    + intros k data.
      assert (Hold : lookupNode t ((cur ++ [c]) ++ take k cs) <> Some (File data)).
      { rewrite <- app_assoc. exact (Hfree (S k) data). }
      destruct (lookupNode t (cur ++ [c])) as [n|] eqn:Hn; [exact Hold|].
      destruct (decide (cur ++ [c] = (cur ++ [c]) ++ take k cs)) as [Heq|Hne].
      * rewrite <- Heq, lookupNode_insert_eq by assumption. discriminate.
      * now rewrite lookupNode_insert_ne.
Qed.

(** Writing a regular file where no directory was leaves every path
    that resolved resolving as before. *)
Lemma walk_putFile (t : gmap (list string) Node) (cur : list string) (cs : list string)
  (q q' : list string) (data : list Byte.byte) :
  lookupNode t q <> Some Dir ->
  walk t cur cs = inr q' -> walk (<[q := File data]> t) cur cs = inr q'.
Proof.
  intros Hq. revert cur. induction cs as [|c cs IH]; intros cur; simpl; [done|].
  destruct (lookupNode t cur) as [[]|] eqn:Hcur; try discriminate.
  rewrite lookupNode_insert_ne by congruence. rewrite Hcur. apply IH.
Qed.

(** ** The event loop *)

Section EventLoopFacts.
Context {host : Host}.

(** With one call in flight and none abandoned, the schedule has no
    choice to make. *)
Lemma step_single (k : nat) (s : Machine) (x : IOop * Cancel) :
  inflight (run s) = [x] -> orphans s = [] ->
  step k s =
  let '(r', w', o) := fire 0 (run s) (world s) in
  mkMachine r' w' (List.map fst o) (cancelled s ++ List.map snd o).
Proof.
  intros Hin Horph. unfold step. rewrite Hin, Horph. cbn [length Nat.add Nat.eqb].
  rewrite Nat.mod_1_r. cbn [Nat.ltb Nat.leb app]. reflexivity.
Qed.

(** Nothing is left to happen once the computation has settled and
    no abandoned call is in flight. *)
Lemma step_idle (k : nat) (s : Machine) (o : Outcome) :
  run s = Settled o -> orphans s = [] -> step k s = s.
Proof. intros Hrun Horph. unfold step. now rewrite Hrun, Horph. Qed.

Lemma exec_idle (schedule : list nat) (s : Machine) (o : Outcome) :
  run s = Settled o -> orphans s = [] -> exec schedule s = s.
Proof.
  intros Hrun Horph. induction schedule as [|k schedule IH]; [reflexivity|].
  unfold exec in *. cbn [fold_left]. now rewrite (step_idle k s o).
Qed.

(** A settled computation stays settled, whatever completes later. *)
Lemma step_settled (k : nat) (s : Machine) (o : Outcome) :
  run s = Settled o -> run (step k s) = Settled o.
Proof.
  intros Hrun. unfold step. rewrite Hrun. cbn [inflight length Nat.add].
  destruct (length (orphans s) =? 0); [exact Hrun|].
  cbn [Nat.ltb Nat.leb]. rewrite Nat.sub_0_r.
  destruct (orphans s !! _); [reflexivity | exact Hrun].
Qed.

Lemma exec_settled (schedule : list nat) (s : Machine) (o : Outcome) :
  run s = Settled o -> run (exec schedule s) = Settled o.
Proof.
  revert s. induction schedule as [|k schedule IH]; intros s Hrun; [exact Hrun|].
  unfold exec in *. cbn [fold_left]. apply IH. now apply step_settled.
Qed.

Lemma exec_cons (k : nat) (schedule : list nat) (s : Machine) :
  exec (k :: schedule) s = exec schedule (step k s).
Proof. reflexivity. Qed.

End EventLoopFacts.

(** ** Single calls *)

Section Calls.
Context {host : Host}.

(** A computation wrapping one call: the call is issued when the
    Future is run, and the first turn of the loop completes it. *)
Lemma computation_run (op : IOop) (callback : Completion -> Outcome) (cancel : Cancel)
  (w : World) (k : nat) (schedule : list nat) :
  validate op = None ->
  exec (k :: schedule) (boot (Computation op callback cancel) w) =
  mkMachine (Settled (callback (perform op w).1)) (perform op w).2 [] [].
Proof.
  intros Hval. unfold boot. cbn [start]. rewrite Hval. cbn [List.map].
  rewrite exec_cons.
  rewrite (step_single k _ (op, cancel)) by reflexivity.
  cbn [run world cancelled fire List.map app].
  destruct (perform op w) as [res w'].
  now apply exec_idle with (o := callback res).
Qed.

Lemma utf8_write_options :
  writeEncoding {[ "encoding" := VStr "utf8" ]} = Return Utf8
  /\ flagOption {[ "encoding" := VStr "utf8" ]} = Return (FlagWrite false).
Proof. split; reflexivity. Qed.

Lemma fs_access_world (filePath : string) (w : World) :
  (fs_access filePath w).2 = w.
Proof.
  unfold fs_access. destruct (resolve w filePath); [reflexivity|].
  now destruct (lookupNode (tree w) l).
Qed.

Lemma fs_readFile_world (x : string) (format : Value) (w : World) :
  (fs_readFile x format w).2 = w.
Proof.
  unfold fs_readFile. destruct (resolve w x); [reflexivity|].
  destruct (lookupNode (tree w) l) as [[]|]; try reflexivity.
  now destruct (getOr None (readOptions format)).
Qed.

(** [fs.writeFile] with the options of [writeFile], at a valid path. *)
Lemma fs_writeFile_valid (file content : string) (w : World) :
  validPath w file = true ->
  exists q,
    resolve w file = inr q /\ q <> [] /\ lookupNode (tree w) q <> Some Dir
    /\ fs_writeFile file content {[ "encoding" := VStr "utf8" ]} w
       = (Done VUndefined, putFile q (encode Utf8 content) w).
Proof.
  unfold validPath, fs_writeFile.
  destruct utf8_write_options as [-> ->]. cbn [getOr].
  destruct (resolve w file) as [e|q]; [discriminate|].
  intros H. exists q.
  assert (Hq : q <> []) by (intros ->; discriminate).
  destruct (lookupNode (tree w) q) as [[data|]|]; try discriminate.
  - repeat split; [exact Hq | discriminate].
  - destruct (lookupNode (tree w) (removelast q)) as [[]|]; try discriminate.
    repeat split; [exact Hq | discriminate].
Qed.

(** ... and away from one. *)
Lemma fs_writeFile_invalid (file content : string) (w : World) :
  validPath w file = false ->
  exists e, fs_writeFile file content {[ "encoding" := VStr "utf8" ]} w = (Failed e, w).
Proof.
  unfold validPath, fs_writeFile.
  destruct utf8_write_options as [-> ->]. cbn [getOr].
  destruct (resolve w file) as [e|q]; [eauto|].
  destruct (lookupNode (tree w) q) as [[data|]|]; try discriminate; eauto.
  destruct (lookupNode (tree w) (removelast q)) as [[]|]; try discriminate; eauto.
Qed.

(** What was put at a path is what a read of the path finds. *)
Lemma fs_readFile_putFile (file : string) (q : list string) (data : list Byte.byte)
  (w : World) :
  resolve w file = inr q -> q <> [] -> lookupNode (tree w) q <> Some Dir ->
  fs_readFile file (VStr "utf8") (putFile q data w)
  = (Done (VStr (decode Utf8 data)), putFile q data w).
Proof.
  intros Hres Hq Hnd. unfold fs_readFile, resolve in *.
  destruct (String.eqb file ""); [discriminate|].
  replace (startDir (putFile q data w) file) with (startDir w file) by reflexivity.
  cbn [tree putFile]. rewrite (walk_putFile _ _ _ q q data Hnd Hres).
  rewrite lookupNode_insert_eq by assumption. reflexivity.
Qed.

End Calls.

(** ** Ramda on configuration objects *)

(** What [without] keeps of an object: the properties whose value is
    not listed, under their own keys. *)
Lemma without_lookup (xs : list Value) (conf : Obj) (key : string) :
  R.without xs conf !! key =
  match conf !! key with
  | Some v => if existsb (sameValueZero v) xs then None else Some v
  | None => None
  end.
Proof.
  unfold R.without, R.reject, R.filter. rewrite map_lookup_filter.
  destruct (conf !! key) as [v|]; [|reflexivity]. cbn.
  destruct (existsb (sameValueZero v) xs); cbn.
  - now rewrite option_guard_False.
  - now rewrite option_guard_True.
Qed.

(** In particular a [parallel] property survives it, unless its value
    happens to be the string ["parallel"]. *)
Lemma without_parallel_kept (conf : Obj) (n : Z) :
  conf !! "parallel" = Some (VNum n) ->
  R.without [VStr "parallel"] conf !! "parallel" = Some (VNum n).
Proof. intros H. rewrite without_lookup, H. reflexivity. Qed.

(** ** The properties of [fs.js] *)

Section Claims.
Context {host : Host}.

(** C5: at every valid path [file] and for every text [content] that
    the utf8 codec carries faithfully, [writeFile file content]
    succeeds with [content] itself as its value, and a [readFile file]
    run afterwards yields [content]. *)
Theorem write_then_read (w : World) (file content : string)
  (k1 k2 : nat) (s1 s2 : list nat) :
  validPath w file = true ->
  decode Utf8 (encode Utf8 content) = content ->
  let written := exec (k1 :: s1) (boot (writeFile file content) w) in
  outcome written = Some (Resolved (VStr content))
  /\ outcome (exec (k2 :: s2) (boot (readFile file) (world written)))
     = Some (Resolved (VStr content)).
Proof.
  intros Hvalid Hcodec written. subst written.
  destruct (fs_writeFile_valid file content w Hvalid) as (q & Hres & Hq & Hnd & Hwrite).
  unfold writeFile, writeFileWithConfig, writeFileWithConfigAndCancel.
  rewrite computation_run by reflexivity.
  cbn [perform]. rewrite Hwrite. cbn [fst snd outcome run world]. split; [reflexivity|].
  unfold readFile, readFileWithCancel, readFileWithFormatAndCancel.
  rewrite computation_run by reflexivity.
  cbn [perform]. rewrite (fs_readFile_putFile file q _ w Hres Hq Hnd).
  cbn [fst snd outcome run]. now rewrite Hcodec.
Qed.

(** C7: on an empty candidate list [findFile] returns the default it
    was given, as it is; a plain default is therefore not even a
    Future, and there is nothing to run. *)
Theorem findFile_empty (fn : string -> Future) (def : Any) (v : Value) :
  findFile fn def [] = def
  /\ Fluture.isFuture (findFile fn (Plain v) []) = false.
Proof. split; reflexivity. Qed.

(** C9: [readAnyOr] never looks at its format argument: whatever is
    passed, the result is [findFile] over the utf8 [readFile] probe. *)
Theorem readAnyOr_ignores_format (def : Any) (f1 f2 : Value) (x : list string) :
  readAnyOr def f1 x = readAnyOr def f2 x
  /\ readAnyOr def f1 x
     = findFile (readFileWithFormatAndCancel NO_OP (VStr "utf8")) def x.
Proof. split; reflexivity. Qed.

End Claims.

(** ** Writing with the directories created on the way *)

Section AutoPath.
Context {host : Host}.

Lemma fs_mkdir_recursive (x : string) (w : World) :
  x <> EmptyString ->
  fs_mkdir x {[ "recursive" := VBool true ]} w =
  match mkdirs (tree w) (startDir w x) (splitSlash x) with
  | inr (t, _) => (Done VUndefined, mkWorld t (cwd w))
  | inl e => (Failed (fsError e "mkdir" x), w)
  end.
Proof.
  intros Hx. unfold fs_mkdir.
  destruct (String.eqb_spec x ""); [contradiction|]. reflexivity.
Qed.

(** Running [writeFileWithAutoPath] issues the existence probe of the
    directory part. *)
Lemma autoPath_boot (filePath content : string) (w : World) :
  boot (writeFileWithAutoPath filePath content) w =
  mkMachine
    (RunChain (fun _ => writeFile filePath content)
       (RunChainRej (fun _ => mkdirp (directoryOnly filePath))
          (Pending (Access (directoryOnly filePath) F_OK)
             (fun res => match res with
                         | Failed err => Rejected err
                         | Done _ => Resolved (VBool true)
                         end)
             NO_OP)))
    w [] [].
Proof. reflexivity. Qed.

(** When the probe succeeds the write is issued next ... *)
Lemma autoPath_probe_ok (filePath content : string) (w : World) (k : nat) (v : Value) :
  fs_access (directoryOnly filePath) w = (Done v, w) ->
  step k (boot (writeFileWithAutoPath filePath content) w) =
  mkMachine
    (Pending (WriteFile filePath content {[ "encoding" := VStr "utf8" ]})
       (fun res => match res with
                   | Failed e => Rejected e
                   | Done _ => Resolved (VStr content)
                   end)
       NO_OP)
    w [] [].
Proof.
  intros Hacc. rewrite autoPath_boot.
  rewrite (step_single k _ (Access (directoryOnly filePath) F_OK, NO_OP)) by reflexivity.
  cbn [run world cancelled fire perform]. rewrite Hacc. reflexivity.
Qed.

(** ... and when it fails, the recursive [mkdir] of the directory part. *)
Lemma autoPath_probe_failed (filePath content : string) (w : World) (k : nat) (e : Value) :
  fs_access (directoryOnly filePath) w = (Failed e, w) ->
  step k (boot (writeFileWithAutoPath filePath content) w) =
  mkMachine
    (RunChain (fun _ => writeFile filePath content)
       (Pending (Mkdir (directoryOnly filePath) {[ "recursive" := VBool true ]})
          (fun res => match res with
                      | Failed err => Rejected err
                      | Done _ => Resolved (VStr (directoryOnly filePath))
                      end)
          NO_OP))
    w [] [].
Proof.
  intros Hacc. rewrite autoPath_boot.
  rewrite (step_single k _ (Access (directoryOnly filePath) F_OK, NO_OP)) by reflexivity.
  cbn [run world cancelled fire perform]. rewrite Hacc. reflexivity.
Qed.

(** The write follows the [mkdir] once that has succeeded; a failed
    [mkdir] is the failure of the whole. *)
Lemma autoPath_mkdir_step (filePath content : string) (w : World) (k : nat)
  (callback : Completion -> Outcome) :
  callback = (fun res => match res with
                         | Failed err => Rejected err
                         | Done _ => Resolved (VStr (directoryOnly filePath))
                         end) ->
  step k
    (mkMachine
       (RunChain (fun _ => writeFile filePath content)
          (Pending (Mkdir (directoryOnly filePath) {[ "recursive" := VBool true ]})
             callback NO_OP))
       w [] []) =
  match fs_mkdir (directoryOnly filePath) {[ "recursive" := VBool true ]} w with
  | (Done _, w1) =>
      mkMachine
        (Pending (WriteFile filePath content {[ "encoding" := VStr "utf8" ]})
           (fun res => match res with
                       | Failed e => Rejected e
                       | Done _ => Resolved (VStr content)
                       end)
           NO_OP)
        w1 [] []
  | (Failed e, w1) => mkMachine (Settled (Rejected e)) w1 [] []
  end.
Proof.
  intros ->.
  rewrite (step_single k _
             (Mkdir (directoryOnly filePath) {[ "recursive" := VBool true ]}, NO_OP))
    by reflexivity.
  cbn [run world cancelled fire perform].
  destruct (fs_mkdir _ _ w) as [[e|v] w1]; reflexivity.
Qed.

(** The last turn: the write itself. *)
Lemma autoPath_write_step (file content : string) (w : World) (k : nat)
  (schedule : list nat) :
  exec (k :: schedule)
    (mkMachine
       (Pending (WriteFile file content {[ "encoding" := VStr "utf8" ]})
          (fun res => match res with
                      | Failed e => Rejected e
                      | Done _ => Resolved (VStr content)
                      end)
          NO_OP)
       w [] []) =
  exec (k :: schedule) (boot (writeFile file content) w).
Proof. reflexivity. Qed.


Lemma writeFile_run (file content : string) (w : World) (k : nat) (schedule : list nat) :
  exec (k :: schedule) (boot (writeFile file content) w) =
  mkMachine
    (Settled
       match (fs_writeFile file content {[ "encoding" := VStr "utf8" ]} w).1 with
       | Failed e => Rejected e
       | Done _ => Resolved (VStr content)
       end)
    (fs_writeFile file content {[ "encoding" := VStr "utf8" ]} w).2 [] [].
Proof.
  unfold writeFile, writeFileWithConfig, writeFileWithConfigAndCancel.
  now rewrite computation_run.
Qed.

(** The write of [dir/base] once [dir] resolves to a directory. *)
Lemma fs_writeFile_into (w : World) (dir base content : string) (d : list string) :
  dir <> EmptyString ->
  includes "/" base = false ->
  isName base = true ->
  walk (tree w) (startDir w dir) (splitSlash dir) = inr d ->
  lookupNode (tree w) d = Some Dir ->
  lookupNode (tree w) (d ++ [base]) <> Some Dir ->
  fs_writeFile (dir +:+ String "/" base) content {[ "encoding" := VStr "utf8" ]} w
  = (Done VUndefined, putFile (d ++ [base]) (encode Utf8 content) w).
Proof.
  intros Hdir Hbase Hname Hwalk Hd Htarget.
  assert (Hres : resolve w (dir +:+ String "/" base) = inr (d ++ [base])).
  { unfold resolve.
    replace (String.eqb (dir +:+ String "/" base) "") with false
      by (destruct dir; [contradiction | reflexivity]).
    unfold startDir in *. rewrite startsWith_app by assumption.
    rewrite splitSlash_last by assumption.
    rewrite walk_app, Hwalk, Hd. now rewrite stepInto_name. }
  assert (Hvalid : validPath w (dir +:+ String "/" base) = true).
  { unfold validPath. rewrite Hres.
    destruct (lookupNode (tree w) (d ++ [base])) as [[]|]; [reflexivity | contradiction |].
    rewrite removelast_last, Hd. reflexivity. }
  destruct (fs_writeFile_valid _ content w Hvalid) as (q & Hq & _ & _ & Hwrite).
  rewrite Hres in Hq. injection Hq as <-. exact Hwrite.
Qed.

(** The whole run: two or three calls, whatever the schedule. *)
Lemma autoPath_succeeds (w : World) (dir base content : string)
  (t' : gmap (list string) Node) (d : list string) (schedule : list nat) :
  dir <> EmptyString ->
  includes "/" base = false ->
  isName base = true ->
  mkdirs (tree w) (startDir w dir) (splitSlash dir) = inr (t', d) ->
  lookupNode t' (d ++ [base]) <> Some Dir ->
  3 <= length schedule ->
  exec schedule (boot (writeFileWithAutoPath (dir +:+ String "/" base) content) w)
  = mkMachine (Settled (Resolved (VStr content)))
      (putFile (d ++ [base]) (encode Utf8 content) (mkWorld t' (cwd w))) [] [].
Proof.
  intros Hdir Hbase Hname Hmk Htarget Hlen.
  destruct schedule as [|k1 [|k2 [|k3 rest]]]; cbn [length] in Hlen; try lia.
  pose proof (directoryOnly_split dir base Hbase) as Hdo.
  destruct (mkdirs_walk _ _ _ _ _ Hmk) as (Hsub & Hwalk' & Hd').
  rewrite exec_cons.
  destruct (fs_access dir w) as [[e|v] w0] eqn:Hacc;
    pose proof (fs_access_world dir w) as Hw0; rewrite Hacc in Hw0; cbn in Hw0; subst w0.
  - (* the directory is missing: mkdir -p, then the write *)
    rewrite (autoPath_probe_failed _ content w k1 e) by (now rewrite Hdo).
    rewrite exec_cons, autoPath_mkdir_step by reflexivity.
    rewrite Hdo, (fs_mkdir_recursive dir w Hdir), Hmk.
    rewrite autoPath_write_step, writeFile_run.
    rewrite (fs_writeFile_into (mkWorld t' (cwd w)) dir base content d); auto.
  - (* the directory is there: the write follows the probe *)
    rewrite (autoPath_probe_ok _ content w k1 v) by (now rewrite Hdo).
    assert (Hsame : t' = tree w /\ walk (tree w) (startDir w dir) (splitSlash dir) = inr d).
    { unfold fs_access, resolve in Hacc.
      destruct (String.eqb_spec dir "") as [?|_]; [contradiction|].
      destruct (walk (tree w) (startDir w dir) (splitSlash dir)) as [err|q] eqn:Hwalk;
        [discriminate|].
      destruct (lookupNode (tree w) q) as [n|] eqn:Hq; [|discriminate].
      rewrite (mkdirs_present _ _ _ _ _ Hwalk Hq) in Hmk.
      destruct n; [discriminate|]. now injection Hmk as <- <-. }
    destruct Hsame as [-> Hwalk].
    rewrite autoPath_write_step, writeFile_run.
    rewrite (fs_writeFile_into w dir base content d); auto.
Qed.

(** C4, as the code has it: for a path [dir/base] whose directory part
    is not empty and can be created (no regular file stands in the
    way of [mkdir -p dir]) and whose target is not a directory,
    [writeFileWithAutoPath] succeeds with the content, whichever
    ancestors were missing: afterwards the directory exists and holds
    the file; and a second call at the same path succeeds too. *)
Theorem writeFileWithAutoPath_creates_and_writes (w : World) (dir base content : string)
  (t' : gmap (list string) Node) (d : list string) (s1 s2 : list nat) :
  dir <> EmptyString ->
  includes "/" base = false ->
  isName base = true ->
  mkdirs (tree w) (startDir w dir) (splitSlash dir) = inr (t', d) ->
  lookupNode t' (d ++ [base]) <> Some Dir ->
  3 <= length s1 ->
  3 <= length s2 ->
  let filePath := dir +:+ String "/" base in
  let first := exec s1 (boot (writeFileWithAutoPath filePath content) w) in
  let second := exec s2 (boot (writeFileWithAutoPath filePath content) (world first)) in
  directoryOnly filePath = dir
  /\ outcome first = Some (Resolved (VStr content))
  /\ lookupNode (tree (world first)) d = Some Dir
  /\ lookupNode (tree (world first)) (d ++ [base]) = Some (File (encode Utf8 content))
  /\ outcome second = Some (Resolved (VStr content))
  /\ world second = world first.
Proof.
  intros Hdir Hbase Hname Hmk Htarget Hs1 Hs2 filePath first second.
  subst second first filePath.
  destruct (mkdirs_walk _ _ _ _ _ Hmk) as (Hsub & Hwalk' & Hd').
  rewrite (autoPath_succeeds w dir base content t' d s1) by assumption.
  cbn [world outcome run].
  set (q := d ++ [base]). set (data := encode Utf8 content).
  assert (Hq : q <> []) by (subst q; now destruct d).
  assert (Hdq : q <> d).
  { subst q. intros Heq. apply (f_equal (@length string)) in Heq.
    rewrite length_app in Heq. cbn in Heq. lia. }
  assert (Hd2 : lookupNode (tree (putFile q data (mkWorld t' (cwd w)))) d = Some Dir).
  { cbn [putFile tree]. now rewrite lookupNode_insert_ne. }
  assert (Hq2 : lookupNode (tree (putFile q data (mkWorld t' (cwd w)))) q
                = Some (File data)).
  { cbn [putFile tree]. now apply lookupNode_insert_eq. }
  split; [now apply directoryOnly_split|].
  split; [reflexivity|]. split; [exact Hd2|]. split; [exact Hq2|].
  rewrite (autoPath_succeeds _ dir base content
             (tree (putFile q data (mkWorld t' (cwd w)))) d s2); try assumption.
  - cbn [outcome run world]. split; [reflexivity|].
    unfold putFile. cbn [tree cwd]. now rewrite insert_insert_eq.
  - rewrite (mkdirs_present _ _ _ d Dir); [reflexivity | | exact Hd2].
    cbn [putFile tree]. apply walk_putFile; assumption.
  - fold q. rewrite Hq2. discriminate.
Qed.

End AutoPath.

(** ** Looking a file up among candidates *)

Section Lookup.
Context {host : Host}.

(** Two candidates and a plain default: a race of the two probes, each
    with its rejection mapped by [F]. *)
Lemma findFile_pair (fn : string -> Future) (v : Value) (a b : string) :
  findFile fn (Plain v) [a; b]
  = Fut (Race (MapRej (fun e => Return (R.F e)) (fn a))
              (MapRej (fun e => Return (R.F e)) (fn b))).
Proof. reflexivity. Qed.

(** The first turn of a race between two reads: the read that
    completes first decides, success or failure. *)
Lemma race_of_reads (a b : string) (w : World) (k : nat) (schedule : list nat) :
  outcome
    (exec (k :: schedule)
       (boot (Race (MapRej (fun e => Return (R.F e)) (readFile a))
                   (MapRej (fun e => Return (R.F e)) (readFile b))) w))
  = Some match (fs_readFile (if k mod 2 =? 0 then a else b) (VStr "utf8") w).1 with
         | Done data => Resolved data
         | Failed _ => Rejected (VBool false)
         end.
Proof.
  rewrite exec_cons. unfold outcome.
  erewrite exec_settled; [reflexivity|].
  unfold boot, step. cbn [start readFile readFileWithCancel readFileWithFormatAndCancel].
  replace (validate (ReadFile a (VStr "utf8"))) with (@None Value) by reflexivity.
  replace (validate (ReadFile b (VStr "utf8"))) with (@None Value) by reflexivity.
  cbn [afterMapRej afterMap List.map app run world orphans cancelled inflight length
       Nat.add Nat.eqb].
  pose proof (Nat.mod_upper_bound k 2 ltac:(lia)) as Hlt.
  rewrite (proj2 (Nat.ltb_lt _ _) Hlt).
  destruct (k mod 2) as [|[|n]] eqn:Hk; [| |lia]; cbn [fire inflight length Nat.ltb Nat.leb
    Nat.sub perform Nat.eqb].
  - destruct (fs_readFile a (VStr "utf8") w) as [[e|data] w']; reflexivity.
  - destruct (fs_readFile b (VStr "utf8") w) as [[e|data] w']; reflexivity.
Qed.

(** C1, as the code has it: with one readable and one missing
    candidate, [findFile readFile null] settles with whichever read
    completes first, in either list order: with the contents when the
    read of the readable path is the first to complete, and with the
    rejection [false] when the failing read of the missing path is. *)
Theorem findFile_first_settled_wins (w : World) (valid missing content : string)
  (err : Value) (k : nat) (schedule : list nat) :
  fs_readFile valid (VStr "utf8") w = (Done (VStr content), w) ->
  fs_readFile missing (VStr "utf8") w = (Failed err, w) ->
  exists m1 m2,
    findFile readFile (Plain VNull) [valid; missing] = Fut m1
    /\ findFile readFile (Plain VNull) [missing; valid] = Fut m2
    /\ outcome (exec (k :: schedule) (boot m1 w))
       = Some (if k mod 2 =? 0 then Resolved (VStr content) else Rejected (VBool false))
    /\ outcome (exec (k :: schedule) (boot m2 w))
       = Some (if k mod 2 =? 0 then Rejected (VBool false) else Resolved (VStr content)).
Proof.
  intros Hvalid Hmissing. eexists _, _.
  split; [apply findFile_pair|]. split; [apply findFile_pair|].
  rewrite !race_of_reads.
  destruct (k mod 2 =? 0); now rewrite ?Hvalid, ?Hmissing.
Qed.

(** ** Reading JSON *)

(** C3, as the code has it: [readJSONFile] resolves with what
    [JSON.parse] makes of the file's text (on [{"a":1}], the mapping
    [{a: 1}]); on malformed text the exception of [JSON.parse] is
    thrown inside [map] and crashes the computation: it carries the
    parser's error, and reaches neither the failure nor the success
    handler. *)
Theorem readJSONFile_parses_or_crashes (w : World) (x text : string)
  (k : nat) (schedule : list nat) :
  fs_readFile x (VStr "utf8") w = (Done (VStr text), w) ->
  let result := outcome (exec (k :: schedule) (boot (readJSONFile x) w)) in
  (forall e, JSON_parse text = Throw e -> result = Some (Crashed e))
  /\ (forall v, JSON_parse text = Return v -> result = Some (Resolved v)).
Proof.
  intros Hread result. subst result.
  assert (Hrun : outcome (exec (k :: schedule) (boot (readJSONFile x) w))
                 = Some match JSON_parse text with
                        | Return v => Resolved v
                        | Throw e => Crashed e
                        end).
  { rewrite exec_cons. unfold outcome. erewrite exec_settled; [reflexivity|].
    unfold readJSONFile, readJSONFileWithCancel, readFileWithCancel,
      readFileWithFormatAndCancel, Fluture.map, boot.
    cbn [start].
    replace (validate (ReadFile x (VStr "utf8"))) with (@None Value) by reflexivity.
    cbn [afterMap List.map].
    rewrite (step_single k _ (ReadFile x (VStr "utf8"), NO_OP)) by reflexivity.
    cbn [run world fire perform]. rewrite Hread.
    cbn [afterMap run]. unfold applyThrowing, parseJSON.
    now destruct (JSON_parse text). }
  split; intros ? Hparse; now rewrite Hrun, Hparse.
Qed.

End Lookup.

(** ** Listing a glob in synchronous mode *)

(** C8, on the code: [readDirWithConfig] calls [glob(g, conf)] with
    two arguments and never looks at [conf.sync] itself.  With the
    callback-style package, synchronous mode then returns an array,
    and the rejection is the [TypeError] of calling [.catch] on it;
    with the promise-style package the option is not known, and the
    computation settles as the search does.  The message
    [callback provided to sync glob] belongs to a call that passes a
    callback, which the code does not make. *)
Theorem readDirWithConfig_sync_mode (h : Host)
  (found : string -> Obj -> list Value)
  (search : string -> Obj -> World -> Completion)
  (pattern : string) (w : World) (k : nat) (schedule : list nat) :
  let conf : Obj := {[ "sync" := VBool true ]} in
  let legacy := withGlob h (callbackGlob found false) in
  let modern := withGlob h (promiseGlob search) in
  outcome (exec (host := legacy) (k :: schedule)
             (boot (readDirWithConfig (host := legacy) conf pattern) w))
  = Some (Rejected (TypeError "glob(...).catch is not a function"))
  /\ outcome (exec (host := modern) (k :: schedule)
                (boot (readDirWithConfig (host := modern) conf pattern) w))
     = Some match search pattern conf w with
            | Failed e => Rejected e
            | Done matches => Resolved matches
            end
  /\ callbackGlob found true pattern conf
     = GlobThrows (TypeError "callback provided to sync glob").
Proof.
  intros conf legacy modern. split; [|split].
  - unfold outcome. erewrite exec_settled; reflexivity.
  - unfold readDirWithConfig, readDirWithConfigAndCancel.
    cbn [glob modern withGlob promiseGlob].
    rewrite computation_run by reflexivity.
    cbn [outcome run perform fst]. now destruct (search pattern conf w).
  - reflexivity.
Qed.

(** ** Removing several files *)

(** C2, on the code: [without([`parallel`], conf)] filters the VALUES
    of [conf], so a [parallel] property is forwarded to every removal
    call as it was given, while a property of any name whose value is
    the string ["parallel"] is dropped. *)
Theorem removeFiles_forwards_parallel :
  let conf : Obj := {[ "parallel" := VNum 2; "force" := VBool true ]} in
  R.without [VStr "parallel"] conf = conf
  /\ (exists m,
        removeFilesWithConfigAndCancel NO_OP conf ["a"; "b"] = Return m
        /\ List.map fst (inflight (start m).1) = [Rm "a" conf; Rm "b" conf])
  /\ R.without [VStr "parallel"] {[ "encoding" := VStr "parallel" ]} = ∅.
Proof.
  intros conf.
  assert (Hconf : R.without [VStr "parallel"] conf = conf) by (vm_compute; reflexivity).
  split; [exact Hconf|]. split.
  - eexists. split; [reflexivity|]. cbn -[R.without]. now rewrite Hconf.
  - vm_compute. reflexivity.
Qed.

(** ** The batch removal, state by state *)

Lemma countRunning_app (a b : list Running) :
  countRunning (a ++ b) = countRunning a + countRunning b.
Proof. unfold countRunning. now rewrite List.filter_app, length_app. Qed.

Lemma firstFailure_app (a b : list Running) :
  firstFailure (a ++ b) =
  match firstFailure a with
  | Some o => Some o
  | None => firstFailure b
  end.
Proof.
  induction a as [|r a IH]; [reflexivity|].
  cbn [app firstFailure]. destruct r as [[]| | | | | | |]; auto.
Qed.

Lemma drain_failed (go : Future -> Running * list (IOop * Cancel)) (max : nat)
  (started : list Running) (queue : list Future) (orphaned : list (IOop * Cancel))
  (o : Outcome) :
  firstFailure started = Some o ->
  drain go max started queue orphaned = (started, queue, orphaned).
Proof. intros H. destruct queue; cbn [drain]; [reflexivity | now rewrite H]. Qed.

Lemma fs_rm_shrinks `{host : Host} (fd : string) (options : Obj) (w : World) :
  tree (fs_rm fd options w).2 ⊆ tree w.
Proof.
  unfold fs_rm. destruct (resolve w fd) as [[]|q]; try reflexivity.
  destruct (lookupNode (tree w) q) as [[]|]; try reflexivity.
  - cbn. apply delete_subseteq.
  - destruct (getOr false (boolOption "recursive" options)); [|reflexivity].
    cbn. apply map_filter_subseteq.
Qed.

Section Batch.
Context {host : Host}.
Variables (cancel : Cancel) (options : Obj) (max : nat).

Local Abbreviation slot := (removalSlot cancel options).
Local Abbreviation member := (removalFuture cancel options).
Local Abbreviation pending := (removalPending cancel options).

Lemma start_removal (fd : string) :
  start (removeFileWithConfigAndCancel cancel options fd) =
  (match validate (Rm fd options) with
   | Some e => Settled (Crashed e)
   | None => pending fd
   end, []).
Proof.
  unfold removeFileWithConfigAndCancel. cbn [start].
  now destruct (validate (Rm fd options)).
Qed.

Lemma inflight_slots (rs : list Running) :
  Forall slot rs ->
  length (concat (List.map inflight rs)) = countRunning rs
  /\ Forall (removalCall options) (List.map fst (concat (List.map inflight rs))).
Proof.
  induction 1 as [|r rs Hr _ [IHlen IHall]]; [split; [reflexivity | constructor]|].
  destruct Hr as [o|fd].
  - split; [exact IHlen | exact IHall].
  - split.
    + cbn. unfold countRunning in *. cbn. now rewrite IHlen.
    + cbn. constructor; [now exists fd | exact IHall].
Qed.

(** Completing the [i]-th call of a batch settles the member it
    belongs to and leaves the others as they are. *)
Lemma fireSlots_removal (rs : list Running) (i : nat) (w : World)
  (op : IOop) (c : Cancel) :
  Forall slot rs ->
  concat (List.map inflight rs) !! i = Some (op, c) ->
  exists pre fd post,
    rs = pre ++ pending fd :: post
    /\ op = Rm fd options
    /\ fireSlots fire i rs w
       = (pre ++ Settled match (fs_rm fd options w).1 with
                         | Failed err => Rejected err
                         | Done _ => Resolved (VStr fd)
                         end :: post,
          (fs_rm fd options w).2, []).
Proof.
  intros Hrs. revert i. induction Hrs as [|r rs Hr _ IH]; intros i Hi; [discriminate|].
  destruct Hr as [o|fd].
  - cbn in Hi. destruct (IH i Hi) as (pre & fd & post & -> & -> & Hfire).
    exists (Settled o :: pre), fd, post. split; [reflexivity|]. split; [reflexivity|].
    cbn [fireSlots inflight length Nat.ltb Nat.leb]. rewrite Nat.sub_0_r, Hfire. reflexivity.
  - destruct i as [|i].
    + cbn in Hi. injection Hi as <- <-.
      exists [], fd, rs. split; [reflexivity|]. split; [reflexivity|].
      cbn [fireSlots removalPending inflight length Nat.ltb Nat.leb fire perform app].
      now destruct (fs_rm fd options w).
    + cbn in Hi. destruct (IH i Hi) as (pre & fd' & post & -> & -> & Hfire).
      exists (pending fd :: pre), fd', post. split; [reflexivity|]. split; [reflexivity|].
      cbn [fireSlots removalPending inflight length Nat.ltb Nat.leb Nat.sub].
      rewrite Nat.sub_0_r. fold (pending fd). rewrite Hfire. reflexivity.
Qed.

(** Refilling the slots keeps the batch in shape. *)
Lemma drain_removal (queue : list Future) (started : list Running)
  (orphaned : list (IOop * Cancel)) :
  Forall slot started -> Forall member queue -> countRunning started <= max ->
  exists started' queue',
    drain start max started queue orphaned = (started', queue', orphaned)
    /\ Forall slot started' /\ Forall member queue' /\ countRunning started' <= max.
Proof.
  revert started. induction queue as [|m queue IH]; intros started Hs Hq Hmax.
  - exists started, []. auto.
  - cbn [drain]. destruct (firstFailure started); [exists started, (m :: queue); auto|].
    destruct (countRunning started <? max) eqn:Hroom; [|exists started, (m :: queue); auto].
    apply Nat.ltb_lt in Hroom.
    apply Forall_cons in Hq as [[fd ->] Hq]. rewrite start_removal.
    rewrite app_nil_r. apply IH; [|exact Hq|].
    + apply Forall_app. split; [exact Hs|]. constructor; [|constructor].
      destruct (validate (Rm fd options)); constructor.
    + rewrite countRunning_app.
      destruct (validate (Rm fd options)); cbn; lia.
Qed.

(** Settling what the refill left. *)
Lemma settle_removal (started : list Running) (queue : list Future) (w : World)
  (log : list Cancel) :
  Forall slot started -> Forall member queue -> countRunning started <= max ->
  Batch cancel options max
    (mkMachine (settleParallel max started queue).1 w
       (List.map fst (settleParallel max started queue).2) log).
Proof.
  intros Hs Hq Hmax. unfold settleParallel.
  destruct (inflight_slots started Hs) as [Hlen Hall].
  destruct (firstFailure started) as [o|] eqn:Hfail.
  - cbn [fst snd]. constructor; [exact Hall|]. rewrite length_map. lia.
  - destruct queue as [|m queue].
    + destruct (resolvedValues started); cbn [fst snd List.map].
      * constructor; [constructor | cbn; lia].
      * now constructor.
    + cbn [fst snd List.map]. now constructor.
Qed.

(** One call of a running batch completes. *)
Lemma batch_fire (started : list Running) (queue : list Future) (w : World)
  (i : nat) (op : IOop) (c : Cancel) :
  Forall slot started -> firstFailure started = None -> countRunning started <= max ->
  Forall member queue ->
  concat (List.map inflight started) !! i = Some (op, c) ->
  exists fd r' o,
    op = Rm fd options
    /\ fire i (RunParallel max started queue) w = (r', (fs_rm fd options w).2, o)
    /\ (forall log,
        Batch cancel options max (mkMachine r' (fs_rm fd options w).2 (List.map fst o) log))
    /\ (forall e, (fs_rm fd options w).1 = Failed e -> r' = Settled (Rejected e)).
Proof.
  intros Hs Hfail Hmax Hq Hi.
  destruct (fireSlots_removal started i w op c Hs Hi) as (pre & fd & post & -> & -> & Hfire).
  set (settled := Settled match (fs_rm fd options w).1 with
                          | Failed err => Rejected err
                          | Done _ => Resolved (VStr fd)
                          end) in *.
  assert (Hs' : Forall slot (pre ++ settled :: post)).
  { apply Forall_app in Hs as [Hpre Hpost]. apply Forall_cons in Hpost as [_ Hpost].
    apply Forall_app. split; [exact Hpre|]. constructor; [constructor | exact Hpost]. }
  assert (Hmax' : countRunning (pre ++ settled :: post) <= max).
  { rewrite countRunning_app in *. unfold countRunning in *. cbn in *. lia. }
  destruct (drain_removal queue (pre ++ settled :: post) [] Hs' Hq Hmax')
    as (started' & queue' & Hdrain & Hs'' & Hq'' & Hmax'').
  exists fd, (settleParallel max started' queue').1, (settleParallel max started' queue').2.
  split; [reflexivity|]. split; [|split].
  - cbn [fire]. rewrite Hfire, Hdrain.
    now destruct (settleParallel max started' queue').
  - intros log. now apply settle_removal.
  - intros e He.
    rewrite firstFailure_app in Hfail.
    destruct (firstFailure pre) eqn:Hpre; [discriminate|].
    assert (Hnow : firstFailure (pre ++ settled :: post) = Some (Rejected e)).
    { rewrite firstFailure_app, Hpre. subst settled. now rewrite He. }
    rewrite (drain_failed _ _ _ _ _ _ Hnow) in Hdrain. injection Hdrain as <- <-.
    unfold settleParallel. now rewrite Hnow.
Qed.

(** The batch as it starts. *)
Lemma batch_boot (paths : list string) (w : World) :
  Batch cancel options max
    (boot (Parallel max (List.map (removeFileWithConfigAndCancel cancel options) paths)) w).
Proof.
  unfold boot. cbn [start].
  assert (Hq : Forall member (List.map (removeFileWithConfigAndCancel cancel options) paths)).
  { induction paths as [|fd paths IH]; cbn; constructor; [now exists fd | exact IH]. }
  destruct (drain_removal _ [] [] (List.Forall_nil _) Hq (Nat.le_0_l _))
    as (started' & queue' & -> & Hs & Hq' & Hmax).
  pose proof (settle_removal started' queue' w [] Hs Hq' Hmax) as HB.
  destruct (settleParallel max started' queue') as [r o]. cbn [fst snd app] in *.
  inversion HB; subst; constructor; auto.
Qed.

(** Every turn of the loop keeps the batch in shape. *)
Lemma batch_step (s : Machine) (k : nat) :
  Batch cancel options max s -> Batch cancel options max (step k s).
Proof.
  intros HB. destruct HB as [started queue w log Hs Hfail Hmax Hq | o w abandoned log Hab Hlen].
  - unfold step. cbn [run world orphans cancelled inflight length].
    rewrite Nat.add_0_r.
    destruct (length (concat (List.map inflight started))) as [|n] eqn:Hn;
      [now constructor|].
    cbn [Nat.eqb].
    pose proof (Nat.mod_upper_bound k (S n) ltac:(lia)) as Hlt.
    rewrite (proj2 (Nat.ltb_lt _ _) Hlt).
    destruct (concat (List.map inflight started) !! (k mod S n)) as [[op c]|] eqn:Hi.
    + destruct (batch_fire started queue w _ op c Hs Hfail Hmax Hq Hi)
        as (fd & r' & o & _ & Hfire & HB & _).
      rewrite Hfire. cbn [app]. apply HB.
    + apply lookup_ge_None in Hi. lia.
  - unfold step. cbn [run world orphans cancelled inflight length Nat.add].
    destruct (length abandoned =? 0); [now constructor|].
    cbn [Nat.ltb Nat.leb]. rewrite Nat.sub_0_r.
    destruct (abandoned !! _) as [op|] eqn:Hop; [|now constructor].
    constructor.
    + now apply Forall_delete.
    + rewrite length_delete by eauto. lia.
Qed.

Lemma batch_exec (schedule : list nat) (s : Machine) :
  Batch cancel options max s -> Batch cancel options max (exec schedule s).
Proof.
  revert s. induction schedule as [|k schedule IH]; intros s HB; [exact HB|].
  rewrite exec_cons. apply IH. now apply batch_step.
Qed.

(** At most [max] calls are in flight, abandoned ones included. *)
Lemma batch_bound (s : Machine) :
  Batch cancel options max s ->
  length (inflight (run s)) + length (orphans s) <= max.
Proof.
  intros [started queue w log Hs _ Hmax _ | o w abandoned log _ Hlen]; cbn.
  - destruct (inflight_slots started Hs) as [-> _]. lia.
  - exact Hlen.
Qed.

(** A turn of the loop only removes entries. *)
Lemma batch_shrinks (s : Machine) (k : nat) :
  Batch cancel options max s -> tree (world (step k s)) ⊆ tree (world s).
Proof.
  intros [started queue w log Hs Hfail Hmax Hq | o w abandoned log Hab Hlen].
  - unfold step. cbn [run world orphans cancelled inflight length].
    rewrite Nat.add_0_r.
    destruct (length (concat (List.map inflight started))) as [|n] eqn:Hn; [reflexivity|].
    cbn [Nat.eqb].
    pose proof (Nat.mod_upper_bound k (S n) ltac:(lia)) as Hlt.
    rewrite (proj2 (Nat.ltb_lt _ _) Hlt).
    destruct (concat (List.map inflight started) !! (k mod S n)) as [[op c]|] eqn:Hi.
    + destruct (batch_fire started queue w _ op c Hs Hfail Hmax Hq Hi)
        as (fd & r' & o & _ & Hfire & _ & _).
      rewrite Hfire. cbn [world]. apply fs_rm_shrinks.
    + apply lookup_ge_None in Hi. lia.
  - unfold step. cbn [run world orphans cancelled inflight length Nat.add].
    destruct (length abandoned =? 0); [reflexivity|].
    cbn [Nat.ltb Nat.leb]. rewrite Nat.sub_0_r.
    destruct (abandoned !! _) as [op|] eqn:Hop; [|reflexivity].
    cbn [world]. eapply Forall_lookup_1 in Hab as [fd ->]; [|exact Hop].
    apply fs_rm_shrinks.
Qed.

Lemma batch_exec_shrinks (schedule : list nat) (s : Machine) :
  Batch cancel options max s -> tree (world (exec schedule s)) ⊆ tree (world s).
Proof.
  revert s. induction schedule as [|k schedule IH]; intros s HB; [reflexivity|].
  rewrite exec_cons. etrans; [apply IH; now apply batch_step|].
  now apply batch_shrinks.
Qed.

(** A removal that fails fails the batch, there and then. *)
Lemma batch_failure (s : Machine) (k : nat) (op : IOop) (c : Cancel) (e : Value) :
  Batch cancel options max s ->
  outcome s = None ->
  inflight (run s) !! (k mod length (inflight (run s))) = Some (op, c) ->
  (perform op (world s)).1 = Failed e ->
  outcome (step k s) = Some (Rejected e).
Proof.
  intros [started queue w log Hs Hfail Hmax Hq | o w abandoned log Hab Hlen];
    [|discriminate].
  intros _ Hi He. cbn [run world inflight] in Hi, He.
  unfold step. cbn [run world orphans cancelled inflight length].
  rewrite Nat.add_0_r.
  destruct (length (concat (List.map inflight started))) as [|n] eqn:Hn.
  { apply lookup_lt_Some in Hi. lia. }
  cbn [Nat.eqb].
  pose proof (Nat.mod_upper_bound k (S n) ltac:(lia)) as Hlt.
  rewrite (proj2 (Nat.ltb_lt _ _) Hlt).
  destruct (batch_fire started queue w _ op c Hs Hfail Hmax Hq Hi)
    as (fd & r' & o & -> & Hfire & _ & Hrej).
  rewrite Hfire. cbn [perform] in He. now rewrite (Hrej e He).
Qed.

End Batch.

(** ** Worked instances on the reference host *)

Module Instances.

(** The reference parser on the sample text. *)
Example parse_sample :
  Reference.JSON_parse Reference.sampleJSON = Return (VObj {[ "a" := VNum 1 ]}).
Proof. vm_compute. reflexivity. Qed.

(** The format does matter to [readFileWithFormatAndCancel]. *)
Example format_matters :
  outcome (exec (host := Reference.host) [0]
             (boot (readFileWithFormatAndCancel NO_OP (VStr "hex") "a.txt") Reference.disk))
  = Some (Resolved (VStr "6869"))
  /\ outcome (exec (host := Reference.host) [0]
                (boot (readFileWithFormatAndCancel NO_OP (VStr "utf8") "a.txt") Reference.disk))
     = Some (Resolved (VStr "hi")).
Proof. split; vm_compute; reflexivity. Qed.

(** A bare file name with a backslash in it: only the last character
    goes, and the directory of that name is what gets created. *)
Example bare_name_run :
  directoryOnly "dir\file" = "dir\fil"
  /\ let s := exec (host := Reference.host) [0; 0; 0]
                (boot (writeFileWithAutoPath "dir\file" "x") Reference.blank) in
     outcome s = Some (Resolved (VStr "x"))
     /\ tree (world s) !! ["dir\fil"] = Some Dir
     /\ tree (world s) !! ["dir\file"] = Some (File (Reference.encode Utf8 "x")).
Proof. split; [reflexivity|]. vm_compute. repeat split; reflexivity. Qed.

(** A path right under the root has an empty directory part, which
    can be neither probed nor created. *)
Example root_level_run :
  directoryOnly "/file" = ""
  /\ outcome (exec (host := Reference.host) [0; 0; 0]
                (boot (writeFileWithAutoPath "/file" "x") Reference.blank))
     = Some (Rejected (fsError ENOENT "mkdir" "")).
Proof. split; vm_compute; reflexivity. Qed.

Lemma write_then_read_witness :
  validPath Reference.blank "a.txt" = true
  /\ Reference.decode Utf8 (Reference.encode Utf8 "hello") = "hello"
  /\ outcome (exec (host := Reference.host) [0] (boot (writeFile "a.txt" "hello") Reference.blank))
     = Some (Resolved (VStr "hello"))
  /\ outcome
       (exec (host := Reference.host) [0]
          (boot (readFile "a.txt")
             (world (exec (host := Reference.host) [0]
                       (boot (writeFile "a.txt" "hello") Reference.blank)))))
     = Some (Resolved (VStr "hello")).
Proof.
  split; [reflexivity|]. split; [reflexivity|].
  apply (write_then_read (host := Reference.host) Reference.blank "a.txt" "hello" 0 0 [] []);
    reflexivity.
Defined.

Lemma writeFileWithAutoPath_creates_and_writes_witness :
  let filePath := "a/b/c" +:+ String "/" "file.biz" in
  let first := exec (host := Reference.host) [0; 0; 0]
                 (boot (writeFileWithAutoPath filePath "cool cool content") Reference.blank) in
  let second := exec (host := Reference.host) [0; 0; 0]
                  (boot (writeFileWithAutoPath filePath "cool cool content") (world first)) in
  mkdirs ∅ [] (splitSlash "a/b/c")
  = inr ({[ ["a"] := Dir; ["a"; "b"] := Dir; ["a"; "b"; "c"] := Dir ]}, ["a"; "b"; "c"])
  /\ directoryOnly filePath = "a/b/c"
  /\ outcome first = Some (Resolved (VStr "cool cool content"))
  /\ lookupNode (tree (world first)) ["a"; "b"; "c"] = Some Dir
  /\ lookupNode (tree (world first)) (["a"; "b"; "c"] ++ ["file.biz"])
     = Some (File (Reference.encode Utf8 "cool cool content"))
  /\ outcome second = Some (Resolved (VStr "cool cool content"))
  /\ world second = world first.
Proof.
  intros filePath first second.
  assert (Hmk : mkdirs (tree Reference.blank) (startDir Reference.blank "a/b/c") (splitSlash "a/b/c")
                = inr ({[ ["a"] := Dir; ["a"; "b"] := Dir; ["a"; "b"; "c"] := Dir ]},
                       ["a"; "b"; "c"])) by (vm_compute; reflexivity).
  split; [exact Hmk|].
  apply (writeFileWithAutoPath_creates_and_writes (host := Reference.host)
           Reference.blank "a/b/c" "file.biz" "cool cool content"
           {[ ["a"] := Dir; ["a"; "b"] := Dir; ["a"; "b"; "c"] := Dir ]} ["a"; "b"; "c"]
           [0; 0; 0] [0; 0; 0]).
  - discriminate.
  - reflexivity.
  - reflexivity.
  - exact Hmk.
  - vm_compute. discriminate.
  - cbn. lia.
  - cbn. lia.
Defined.


Lemma findFile_first_settled_wins_witness :
  fs_readFile (host := Reference.host) "a.txt" (VStr "utf8") Reference.disk = (Done (VStr "hi"), Reference.disk)
  /\ exists m1 m2,
       findFile readFile (Plain VNull) ["a.txt"; "b.txt"] = Fut m1
       /\ findFile readFile (Plain VNull) ["b.txt"; "a.txt"] = Fut m2
       /\ outcome (exec (host := Reference.host) [0] (boot m1 Reference.disk))
          = Some (Resolved (VStr "hi"))
       /\ outcome (exec (host := Reference.host) [0] (boot m2 Reference.disk))
          = Some (Rejected (VBool false)).
Proof.
  split; [vm_compute; reflexivity|].
  apply (findFile_first_settled_wins (host := Reference.host) Reference.disk "a.txt" "b.txt" "hi"
           (fsError ENOENT "open" "b.txt") 0 []); vm_compute; reflexivity.
Defined.

Lemma readJSONFile_parses_or_crashes_witness :
  fs_readFile (host := Reference.host) "ok.json" (VStr "utf8") Reference.disk
  = (Done (VStr Reference.sampleJSON), Reference.disk)
  /\ outcome (exec (host := Reference.host) [0]
                (boot (readJSONFile (host := Reference.host) "ok.json") Reference.disk))
     = Some (Resolved (VObj {[ "a" := VNum 1 ]})).
Proof.
  assert (Hread : fs_readFile (host := Reference.host) "ok.json" (VStr "utf8") Reference.disk
                  = (Done (VStr Reference.sampleJSON), Reference.disk)) by (vm_compute; reflexivity).
  split; [exact Hread|].
  apply (readJSONFile_parses_or_crashes (host := Reference.host)
           Reference.disk "ok.json" Reference.sampleJSON 0 [] Hread).
  exact parse_sample.
Defined.

(** C1 does not hold as stated: the failing read of the missing
    candidate may complete first, and then the lookup is rejected
    although the other candidate is readable. *)
Lemma findFile_readable_candidate_lost :
  fs_readFile (host := Reference.host) "a.txt" (VStr "utf8") Reference.disk = (Done (VStr "hi"), Reference.disk)
  /\ match findFile readFile (Plain VNull) ["a.txt"; "b.txt"] with
     | Fut m => outcome (exec (host := Reference.host) [1] (boot m Reference.disk))
     | Plain _ => None
     end = Some (Rejected (VBool false)).
Proof. split; vm_compute; reflexivity. Qed.

(** C3 does not hold as stated: on malformed JSON the computation
    crashes with the parser's error; it is not rejected. *)
Lemma readJSONFile_malformed_crashes :
  let result := outcome (exec (host := Reference.host) [0]
                           (boot (readJSONFile (host := Reference.host) "bad.json") Reference.disk)) in
  result = Some (Crashed (Reference.syntaxError "{oops"))
  /\ forall reason, result <> Some (Rejected reason).
Proof.
  assert (H : outcome (exec (host := Reference.host) [0]
                         (boot (readJSONFile (host := Reference.host) "bad.json") Reference.disk))
              = Some (Crashed (Reference.syntaxError "{oops")))
    by (vm_compute; reflexivity).
  cbv zeta. rewrite H. split; [reflexivity | discriminate].
Qed.

(** C4 does not hold as stated: where a regular file has the name of
    the directory part, the probe succeeds, nothing is created, and
    the write fails. *)
Lemma writeFileWithAutoPath_regular_file_in_the_way :
  outcome (exec (host := Reference.host) [0; 0; 0]
             (boot (writeFileWithAutoPath "notes/today.txt" "x") Reference.disk))
  = Some (Rejected (fsError ENOTDIR "open" "notes/today.txt")).
Proof. vm_compute. reflexivity. Qed.

End Instances.

(** * Further properties *)

(** ** Paths *)

Lemma includes_split (p : string) :
  includes "/" p = true ->
  exists dir base, p = dir +:+ String "/" base /\ includes "/" base = false.
Proof.
  induction p as [|a p IH]; [discriminate|]. cbn [includes].
  destruct (includes "/" p) eqn:Hp.
  - intros _. destruct (IH eq_refl) as (dir & base & -> & Hbase).
    exists (String a dir), base. now rewrite append_String.
  - rewrite orb_false_r. intros Ha. apply Ascii.eqb_eq in Ha as ->.
    exists EmptyString, p. now rewrite append_empty.
Qed.

Lemma includes_dropLast (c : ascii) (p : string) :
  includes c p = false -> includes c (dropLast p) = false.
Proof.
  induction p as [|a p IH]; [reflexivity|]. cbn [includes]. intros H.
  apply orb_false_iff in H as [Ha Hp].
  destruct p as [|b p]; [reflexivity|].
  cbn [dropLast includes] in *. rewrite Ha. now apply IH.
Qed.

Lemma dropLast_shorter (p : string) :
  p <> EmptyString -> String.length (dropLast p) < String.length p.
Proof.
  induction p as [|a p IH]; [contradiction|]. intros _.
  destruct p as [|b p]; [cbn; lia|].
  cbn [dropLast String.length] in *. specialize (IH ltac:(discriminate)). lia.
Qed.

(** X1: [directoryOnly] cuts a path at its last slash: either the path
    has no slash, and only its last character goes; or the path is
    the result, a slash, and a last segment without slash. *)
Theorem directoryOnly_cuts_at_last_slash (p : string) :
  (includes "/" p = false /\ directoryOnly p = dropLast p)
  \/ (exists base,
        includes "/" base = false /\ p = directoryOnly p +:+ String "/" base).
Proof.
  destruct (includes "/" p) eqn:Hp.
  - right. destruct (includes_split p Hp) as (dir & base & -> & Hbase).
    exists base. now rewrite directoryOnly_split.
  - left. split; [reflexivity | now apply directoryOnly_bare].
Qed.

(** ** Reading and writing a file *)

Section ReadWrite.
Context {host : Host}.

(** A computation whose call is refused when it is made crashes, and
    nothing is issued. *)
Lemma computation_invalid (op : IOop) (callback : Completion -> Outcome) (cancel : Cancel)
  (w : World) (e : Value) (schedule : list nat) :
  validate op = Some e ->
  exec schedule (boot (Computation op callback cancel) w)
  = mkMachine (Settled (Crashed e)) w [] [].
Proof.
  intros Hval. unfold boot. cbn [start]. rewrite Hval. cbn [List.map].
  now apply exec_idle with (o := Crashed e).
Qed.

Lemma fs_writeFile_failed (file content : string) (conf : Obj) (w : World) (e : Value) :
  (fs_writeFile file content conf w).1 = Failed e ->
  (fs_writeFile file content conf w).2 = w.
Proof.
  unfold fs_writeFile. destruct (resolve w file) as [err|q]; [reflexivity|].
  destruct (lookupNode (tree w) q) as [[old|]|];
    destruct (getOr (FlagWrite false) (flagOption conf)) as [| |[]|[]];
    try reflexivity; try discriminate;
    destruct (lookupNode (tree w) (removelast q)) as [[]|]; try reflexivity; discriminate.
Qed.

Lemma resolve_putFile (w : World) (x : string) (q q' : list string)
  (data : list Byte.byte) :
  lookupNode (tree w) q <> Some Dir ->
  resolve w x = inr q' -> resolve (putFile q data w) x = inr q'.
Proof.
  intros Hq. unfold resolve. destruct (String.eqb x ""); [discriminate|].
  replace (startDir (putFile q data w) x) with (startDir w x) by reflexivity.
  cbn [putFile tree]. now apply walk_putFile.
Qed.


(** X3: a second [writeFile] at the same path replaces the first: it
    resolves with the new content and leaves the file system exactly
    as if the first write had not happened. *)
Theorem write_twice_keeps_the_last (w : World) (file c1 c2 : string)
  (k1 k2 : nat) (r1 r2 : list nat) :
  validPath w file = true ->
  let once := exec (k1 :: r1) (boot (writeFile file c1) w) in
  let twice := exec (k2 :: r2) (boot (writeFile file c2) (world once)) in
  outcome twice = Some (Resolved (VStr c2))
  /\ world twice = world (exec (k2 :: r2) (boot (writeFile file c2) w)).
Proof.
  intros Hvalid once twice. subst twice once.
  destruct (fs_writeFile_valid file c1 w Hvalid) as (q & Hres & Hq & Hnd & Hw1).
  destruct (fs_writeFile_valid file c2 w Hvalid) as (q2 & Hres2 & _ & _ & Hw2).
  rewrite Hres in Hres2. injection Hres2 as <-.
  rewrite !writeFile_run, Hw1, Hw2. cbn [fst snd world].
  assert (Hvalid' : validPath (putFile q (encode Utf8 c1) w) file = true).
  { unfold validPath. rewrite (resolve_putFile w file q q _ Hnd Hres).
    cbn [putFile tree]. now rewrite lookupNode_insert_eq. }
  destruct (fs_writeFile_valid file c2 _ Hvalid') as (q' & Hres' & _ & _ & Hw').
  rewrite (resolve_putFile w file q q _ Hnd Hres) in Hres'. injection Hres' as <-.
  rewrite Hw'. cbn [fst snd outcome run world]. split; [reflexivity|].
  unfold putFile. cbn [tree cwd]. now rewrite insert_insert_eq.
Qed.

(** X4: writing one file does not change what a read of another file
    delivers: for every path that resolves to a different place, the
    read after the write settles as the read before it. *)
Theorem write_leaves_other_files (w : World) (file content other : string)
  (q q' : list string) (cancel : Cancel) (format : Value)
  (k1 k2 : nat) (r1 r2 : list nat) :
  validPath w file = true ->
  resolve w file = inr q ->
  resolve w other = inr q' ->
  q' <> q ->
  let written := exec (k1 :: r1) (boot (writeFile file content) w) in
  outcome (exec (k2 :: r2)
             (boot (readFileWithFormatAndCancel cancel format other) (world written)))
  = outcome (exec (k2 :: r2) (boot (readFileWithFormatAndCancel cancel format other) w)).
Proof.
  intros Hvalid Hres Hother Hne written. subst written.
  destruct (fs_writeFile_valid file content w Hvalid) as (q0 & Hres0 & Hq & Hnd & Hw).
  rewrite Hres in Hres0. injection Hres0 as <-.
  rewrite writeFile_run, Hw. cbn [fst snd world].
  unfold readFileWithFormatAndCancel.
  destruct (validate (ReadFile other format)) as [e|] eqn:Hval.
  - now rewrite !(computation_invalid _ _ _ _ e).
  - rewrite !computation_run by assumption. cbn [perform outcome run].
    unfold fs_readFile. rewrite (resolve_putFile w other q q' _ Hnd Hother), Hother.
    cbn [putFile tree]. rewrite lookupNode_insert_ne by congruence.
    destruct (lookupNode (tree w) q') as [[data|]|]; try reflexivity.
    now destruct (getOr None (readOptions format)).
Qed.

(** X5: [readFile] on a path that names nothing is rejected with
    Node's [ENOENT] error for [open], passed on as it is, and the file
    system is not touched. *)
Theorem readFile_missing_path (w : World) (x : string) (k : nat) (schedule : list nat) :
  absent w x = true ->
  let s := exec (k :: schedule) (boot (readFile x) w) in
  outcome s = Some (Rejected (fsError ENOENT "open" x)) /\ world s = w.
Proof.
  intros Habs s. subst s.
  unfold readFile, readFileWithCancel, readFileWithFormatAndCancel.
  rewrite computation_run by reflexivity. cbn [perform outcome run world].
  unfold absent in Habs. unfold fs_readFile.
  destruct (resolve w x) as [[]|q]; try discriminate; [split; reflexivity|].
  destruct (lookupNode (tree w) q); [discriminate|]. split; reflexivity.
Qed.

(** X6: when the read of the file is rejected, [readJSONFile] is
    rejected with the same error, whatever the parser: a rejection
    passes [map] untouched. *)
Theorem readJSONFile_unreadable (w : World) (x : string) (e : Value)
  (k : nat) (schedule : list nat) :
  outcome (exec (k :: schedule) (boot (readFile x) w)) = Some (Rejected e) ->
  outcome (exec (k :: schedule) (boot (readJSONFile x) w)) = Some (Rejected e).
Proof.
  unfold readFile, readJSONFile, readJSONFileWithCancel, readFileWithCancel,
    readFileWithFormatAndCancel, Fluture.map.
  rewrite computation_run by reflexivity. cbn [perform outcome run].
  intros Hread. rewrite exec_cons. unfold outcome.
  erewrite exec_settled; [reflexivity|].
  unfold boot. cbn [start].
  replace (validate (ReadFile x (VStr "utf8"))) with (@None Value) by reflexivity.
  cbn [afterMap List.map].
  rewrite (step_single k _ (ReadFile x (VStr "utf8"), NO_OP)) by reflexivity.
  cbn [run world fire perform].
  destruct (fs_readFile x (VStr "utf8") w) as [[err|data] w']; cbn [fst] in Hread.
  - injection Hread as ->. reflexivity.
  - discriminate.
Qed.

End ReadWrite.

(** ** Directories *)

Section Directories.
Context {host : Host}.

Lemma mkdirp_run (x : string) (w : World) (k : nat) (schedule : list nat) :
  exec (k :: schedule) (boot (mkdirp x) w) =
  mkMachine
    (Settled match (fs_mkdir x {[ "recursive" := VBool true ]} w).1 with
             | Failed err => Rejected err
             | Done _ => Resolved (VStr x)
             end)
    (fs_mkdir x {[ "recursive" := VBool true ]} w).2 [] [].
Proof.
  unfold mkdirp, mkdir, mkdirWithCancel. now rewrite computation_run.
Qed.

Lemma exists_run (x : string) (w : World) (k : nat) (schedule : list nat) :
  exec (k :: schedule) (boot (exists_ x) w) =
  mkMachine
    (Settled match (fs_access x w).1 with
             | Failed err => Rejected err
             | Done _ => Resolved (VBool true)
             end)
    w [] [].
Proof.
  unfold exists_, access. rewrite computation_run by reflexivity.
  cbn [perform]. now rewrite fs_access_world.
Qed.

(** X7: when [mkdirp x] resolves, its value is [x], every entry that
    existed is still there unchanged, and [exists x] run afterwards
    resolves with [true]. *)
Theorem mkdirp_then_exists (w : World) (x : string) (v : Value)
  (k1 k2 : nat) (r1 r2 : list nat) :
  outcome (exec (k1 :: r1) (boot (mkdirp x) w)) = Some (Resolved v) ->
  let made := exec (k1 :: r1) (boot (mkdirp x) w) in
  v = VStr x
  /\ tree w ⊆ tree (world made)
  /\ cwd (world made) = cwd w
  /\ outcome (exec (k2 :: r2) (boot (exists_ x) (world made)))
     = Some (Resolved (VBool true)).
Proof.
  intros Hout made. subst made. rewrite mkdirp_run in *.
  cbn [outcome run world] in *.
  destruct (String.eqb_spec x "") as [->|Hx].
  { exfalso. cbn in Hout. discriminate. }
  rewrite (fs_mkdir_recursive x w Hx) in *.
  destruct (mkdirs (tree w) (startDir w x) (splitSlash x)) as [err|[t' d]] eqn:Hmk;
    cbn [fst snd] in *; [discriminate|].
  destruct (mkdirs_walk _ _ _ _ _ Hmk) as (Hsub & Hwalk & Hd).
  injection Hout as <-. repeat split; [exact Hsub|].
  rewrite exists_run. cbn [outcome run].
  unfold fs_access, resolve. destruct (String.eqb_spec x ""); [contradiction|].
  replace (startDir {| tree := t'; cwd := cwd w |} x) with (startDir w x) by reflexivity.
  cbn [tree]. now rewrite Hwalk, Hd.
Qed.

(** X8: on a path that is already a directory, [mkdirp] resolves and
    changes nothing, where [mkdir] without the recursive option is
    rejected with [EEXIST]. *)
Theorem mkdirp_on_existing_directory (w : World) (x : string) (q : list string)
  (k : nat) (schedule : list nat) :
  resolve w x = inr q ->
  lookupNode (tree w) q = Some Dir ->
  exec (k :: schedule) (boot (mkdirp x) w)
  = mkMachine (Settled (Resolved (VStr x))) w [] []
  /\ exec (k :: schedule) (boot (mkdir ∅ x) w)
     = mkMachine (Settled (Rejected (fsError EEXIST "mkdir" x))) w [] [].
Proof.
  intros Hres Hq.
  assert (Hx : x <> "") by (intros ->; discriminate).
  split.
  - rewrite mkdirp_run, (fs_mkdir_recursive x w Hx).
    unfold resolve in Hres. destruct (String.eqb_spec x ""); [contradiction|].
    rewrite (mkdirs_present _ _ _ _ _ Hres Hq). cbn [fst snd]. now destruct w.
  - unfold mkdir, mkdirWithCancel. rewrite computation_run by reflexivity.
    cbn [perform]. unfold fs_mkdir. destruct (String.eqb_spec x ""); [contradiction|].
    replace (boolOption "recursive" ∅) with (@Return bool false) by reflexivity.
    cbn [getOr]. now rewrite Hres, Hq.
Qed.

End Directories.

(** ** Removing *)

Section Removing.
Context {host : Host}.

Lemma rm_run (options : Obj) (x : string) (w : World) (k : nat) (schedule : list nat) :
  validate (Rm x options) = None ->
  exec (k :: schedule) (boot (removeFileWithConfig options x) w) =
  mkMachine
    (Settled match (fs_rm x options w).1 with
             | Failed err => Rejected err
             | Done _ => Resolved (VStr x)
             end)
    (fs_rm x options w).2 [] [].
Proof.
  intros Hval. unfold removeFileWithConfig, removeFileWithConfigAndCancel.
  now rewrite computation_run.
Qed.

Lemma rimraf_options :
  boolOption "force" {[ "force" := VBool true; "recursive" := VBool true ]} = Return true
  /\ boolOption "recursive" {[ "force" := VBool true; "recursive" := VBool true ]}
     = Return true.
Proof. split; reflexivity. Qed.

Lemma walk_delete_file (t : gmap (list string) Node) (cur : list string)
  (cs : list string) (q q' : list string) :
  lookupNode t q <> Some Dir ->
  walk t cur cs = inr q' -> walk (delete q t) cur cs = inr q'.
Proof.
  intros Hq. revert cur. induction cs as [|c cs IH]; intros cur; simpl; [done|].
  destruct (lookupNode t cur) as [[]|] eqn:Hcur; try discriminate.
  assert (Hne : q <> cur) by congruence.
  replace (lookupNode (delete q t) cur) with (Some Dir).
  - apply IH.
  - destruct cur; [reflexivity|]. cbn in *. now rewrite lookup_delete_ne.
Qed.

(** X9: on a path that names nothing, [rm] is rejected with Node's
    [ENOENT] error while [rimraf], which forces, resolves with the
    path; neither touches the file system. *)
Theorem rm_and_rimraf_on_missing_path (w : World) (x : string)
  (k : nat) (schedule : list nat) :
  absent w x = true ->
  exec (k :: schedule) (boot (rm x) w)
  = mkMachine (Settled (Rejected (fsError ENOENT "lstat" x))) w [] []
  /\ exec (k :: schedule) (boot (rimraf x) w)
     = mkMachine (Settled (Resolved (VStr x))) w [] [].
Proof.
  intros Habs. unfold rm, rimraf. rewrite !rm_run by reflexivity.
  unfold fs_rm. destruct rimraf_options as [-> ->].
  replace (boolOption "force" ∅) with (@Return bool false) by reflexivity.
  cbn [getOr]. unfold absent in Habs.
  destruct (resolve w x) as [[]|q]; try discriminate; [split; reflexivity|].
  destruct (lookupNode (tree w) q); [discriminate|]. split; reflexivity.
Qed.

(** X10: [rm] of a regular file resolves with the path; afterwards the
    path names nothing, and every other entry is as it was. *)
Theorem rm_removes_the_file (w : World) (x : string) (q : list string)
  (data : list Byte.byte) (k : nat) (schedule : list nat) :
  resolve w x = inr q ->
  lookupNode (tree w) q = Some (File data) ->
  let s := exec (k :: schedule) (boot (rm x) w) in
  outcome s = Some (Resolved (VStr x))
  /\ absent (world s) x = true
  /\ forall q', q' <> q -> tree (world s) !! q' = tree w !! q'.
Proof.
  intros Hres Hq s. subst s. unfold rm. rewrite rm_run by reflexivity.
  unfold fs_rm. rewrite Hres, Hq. cbn [fst snd outcome run world].
  split; [reflexivity|]. split.
  - unfold absent, resolve in *. destruct (String.eqb x ""); [discriminate|].
    replace (startDir {| tree := delete q (tree w); cwd := cwd w |} x)
      with (startDir w x) by reflexivity.
    cbn [tree]. rewrite (walk_delete_file _ _ _ q q) by (congruence || assumption).
    destruct q; [discriminate|]. cbn. now rewrite lookup_delete_eq.
  - intros q' Hne. cbn [tree]. now apply lookup_delete_ne.
Qed.

(** X11: on a directory named by a path whose last component is a
    name, [rm] is rejected and removes nothing, while [rimraf]
    resolves with the path and removes the directory with everything
    below it, and nothing else. *)
Theorem rimraf_removes_the_subtree (w : World) (x : string) (q : list string)
  (k : nat) (schedule : list nat) :
  endsInName x = true ->
  resolve w x = inr q ->
  lookupNode (tree w) q = Some Dir ->
  let s := exec (k :: schedule) (boot (rimraf x) w) in
  (exists e, exec (k :: schedule) (boot (rm x) w) = mkMachine (Settled (Rejected e)) w [] [])
  /\ outcome s = Some (Resolved (VStr x))
  /\ cwd (world s) = cwd w
  /\ forall q',
       tree (world s) !! q' = if decide (q `prefix_of` q') then None else tree w !! q'.
Proof.
  intros _ Hres Hq s. subst s. unfold rm, rimraf. rewrite !rm_run by reflexivity.
  unfold fs_rm. destruct rimraf_options as [-> ->].
  replace (boolOption "recursive" ∅) with (@Return bool false) by reflexivity.
  rewrite Hres, Hq. cbn [getOr fst snd outcome run world cwd tree].
  split; [eauto|]. split; [reflexivity|]. split; [reflexivity|].
  intros q'. unfold removeTree. rewrite map_lookup_filter.
  destruct (tree w !! q') as [n|] eqn:Hn; cbn.
  - destruct (decide (q `prefix_of` q')).
    + now rewrite option_guard_False by tauto.
    + now rewrite option_guard_True.
  - now destruct (decide (q `prefix_of` q')).
Qed.

(** X12: when the [parallel] of the configuration is an integer that
    is not positive, or a value that is not a number at all (a
    boolean, a string, an error, a buffer, an array or an object),
    [removeFilesWithConfigAndCancel] throws a [TypeError] when it is
    called, whatever the paths: no computation is built, and nothing
    is removed.  (Numbers are the integers here; [Infinity], which
    [parallel] accepts, and [NaN], which [propOr] replaces by the
    default, are not among the values.) *)
Theorem removeFiles_refuses_bad_parallel (cancel : Cancel) (conf : Obj) (v : Value)
  (paths : list string) :
  conf !! "parallel" = Some v ->
  isNil v = false ->
  (forall n, v = VNum n -> (n <= 0)%Z) ->
  exists message,
    removeFilesWithConfigAndCancel cancel conf paths = Throw (TypeError message).
Proof.
  intros Hv Hnil Hbad. unfold removeFilesWithConfigAndCancel, R.propOr.
  rewrite Hv, Hnil. destruct v; try (eexists; reflexivity).
  cbn [Fluture.parallel]. specialize (Hbad n eq_refl).
  rewrite (proj2 (Z.ltb_ge 0 n) Hbad). eexists. reflexivity.
Qed.

End Removing.

(** ** Where the automatic path falls short *)

Section AutoPathEdges.
Context {host : Host}.

Lemma resolve_under (w : World) (dir base : string) (d : list string) :
  dir <> EmptyString ->
  includes "/" base = false ->
  walk (tree w) (startDir w dir) (splitSlash dir) = inr d ->
  resolve w (dir +:+ String "/" base)
  = match lookupNode (tree w) d with
    | Some Dir => inr (stepInto d base)
    | Some (File _) => inl ENOTDIR
    | None => inl ENOENT
    end.
Proof.
  intros Hdir Hbase Hwalk. unfold resolve.
  replace (String.eqb (dir +:+ String "/" base) "") with false
    by (destruct dir; [contradiction | reflexivity]).
  unfold startDir in *. rewrite startsWith_app by assumption.
  rewrite splitSlash_last by assumption. now rewrite walk_app, Hwalk.
Qed.

(** X13: for a path directly under the root, [/name], the directory
    part is the empty string: the probe fails, [mkdir] of the empty
    path fails, and [writeFileWithAutoPath] is rejected with that
    error without writing anything, although the root exists. *)
Theorem writeFileWithAutoPath_at_the_root (w : World) (base content : string)
  (k1 k2 : nat) (rest : list nat) :
  includes "/" base = false ->
  directoryOnly (String "/" base) = ""
  /\ exec (k1 :: k2 :: rest) (boot (writeFileWithAutoPath (String "/" base) content) w)
     = mkMachine (Settled (Rejected (fsError ENOENT "mkdir" ""))) w [] [].
Proof.
  intros Hbase.
  pose proof (directoryOnly_split "" base Hbase) as Hdo. rewrite append_empty in Hdo.
  split; [exact Hdo|].
  rewrite exec_cons.
  rewrite (autoPath_probe_failed _ content w k1 (fsError ENOENT "access" ""))
    by (now rewrite Hdo).
  rewrite exec_cons, autoPath_mkdir_step by reflexivity.
  rewrite Hdo. cbn [fs_mkdir String.eqb].
  now apply exec_idle with (o := Rejected (fsError ENOENT "mkdir" "")).
Qed.

(** X14: for a path [dir/base] whose last component [base] is a
    name and whose directory part names a regular file, the probe
    succeeds (it only asks whether something is there), no directory
    is made, and the write is rejected with [ENOTDIR]; the file
    system is left as it was. *)
Theorem writeFileWithAutoPath_under_a_file (w : World) (dir base content : string)
  (d : list string) (data : list Byte.byte) (k1 k2 : nat) (rest : list nat) :
  dir <> EmptyString ->
  includes "/" base = false ->
  isName base = true ->
  walk (tree w) (startDir w dir) (splitSlash dir) = inr d ->
  lookupNode (tree w) d = Some (File data) ->
  exec (k1 :: k2 :: rest)
    (boot (writeFileWithAutoPath (dir +:+ String "/" base) content) w)
  = mkMachine
      (Settled (Rejected (fsError ENOTDIR "open" (dir +:+ String "/" base)))) w [] [].
Proof.
  intros Hdir Hbase _ Hwalk Hd.
  pose proof (directoryOnly_split dir base Hbase) as Hdo.
  assert (Hacc : fs_access dir w = (Done VUndefined, w)).
  { unfold fs_access, resolve.
    destruct (String.eqb_spec dir "") as [?|_]; [contradiction|].
    now rewrite Hwalk, Hd. }
  rewrite exec_cons.
  rewrite (autoPath_probe_ok _ content w k1 VUndefined) by (now rewrite Hdo).
  rewrite autoPath_write_step, writeFile_run.
  unfold fs_writeFile. rewrite (resolve_under w dir base d Hdir Hbase Hwalk), Hd.
  reflexivity.
Qed.

(** X15: where the separator is the slash, [localize z] names [z] in
    the working directory, its directory part is [.], and
    [writeFileWithAutoPath] on it writes the file there without
    making any directory. *)
Theorem writeFileWithAutoPath_localized (w : World) (z content : string)
  (schedule : list nat) :
  sep = "/" ->
  includes "/" z = false ->
  isName z = true ->
  lookupNode (tree w) (cwd w) = Some Dir ->
  lookupNode (tree w) (cwd w ++ [z]) <> Some Dir ->
  3 <= length schedule ->
  directoryOnly (localize z) = "."
  /\ exec schedule (boot (writeFileWithAutoPath (localize z) content) w)
     = mkMachine (Settled (Resolved (VStr content)))
         (putFile (cwd w ++ [z]) (encode Utf8 content) w) [] [].
Proof.
  intros Hsep Hz Hname Hcwd Htarget Hlen.
  assert (Hloc : localize z = "." +:+ String "/" z).
  { unfold localize. rewrite Hsep. reflexivity. }
  rewrite Hloc. split; [now apply directoryOnly_split|].
  rewrite (autoPath_succeeds w "." z content (tree w) (cwd w) schedule);
    try assumption; try discriminate.
  - now destruct w.
  - change (startDir w ".") with (cwd w). change (splitSlash ".") with ["."].
    unfold mkdirs. change (stepInto (cwd w) ".") with (cwd w). cbv zeta.
    now rewrite !Hcwd.
Qed.

End AutoPathEdges.

(** ** Calls that only look *)

Section ReadOnly.
Context {host : Host}.

Lemma computation_world (op : IOop) (callback : Completion -> Outcome) (cancel : Cancel)
  (w : World) (schedule : list nat) :
  (perform op w).2 = w ->
  world (exec schedule (boot (Computation op callback cancel) w)) = w.
Proof.
  intros Hpure. destruct (validate op) as [e|] eqn:Hval.
  - now rewrite (computation_invalid op callback cancel w e schedule Hval).
  - destruct schedule as [|k schedule].
    + unfold boot. cbn [start]. now rewrite Hval.
    + now rewrite computation_run.
Qed.

(** X16: whatever the [glob] package does with the call (throw, hand
    back something that is no promise, or search), listing a
    directory never crashes: after the first turn of the loop the
    computation has resolved or been rejected, and the file system
    is as it was. *)
Theorem readDir_rejects_what_glob_throws (cancel : Cancel) (conf : Obj) (g : string)
  (w : World) (k : nat) (schedule : list nat) :
  let s := exec (k :: schedule) (boot (readDirWithConfigAndCancel cancel conf g) w) in
  world s = w
  /\ ((exists e, outcome s = Some (Rejected e)) \/ (exists v, outcome s = Some (Resolved v)))
  /\ (forall e, glob g conf = GlobThrows e -> outcome s = Some (Rejected e)).
Proof.
  intros s. subst s. unfold readDirWithConfigAndCancel.
  destruct (glob g conf) as [e|settle|v].
  - rewrite (exec_idle _ _ (Rejected e)) by reflexivity.
    split; [reflexivity|]. split; [left; now exists e|]. now intros e' [= <-].
  - rewrite computation_run by reflexivity. cbn [world outcome run perform fst snd].
    split; [reflexivity|]. split; [|discriminate].
    destruct (settle w) as [e|v]; [left; now exists e | right; now exists v].
  - erewrite exec_idle by reflexivity.
    split; [reflexivity|]. split; [|discriminate]. left. eexists. reflexivity.
Qed.


End ReadOnly.

(** ** One directory, and a write taken back *)

Lemma mkdirs_last (t : gmap (list string) Node) (cur : list string) (cs : list string)
  (d : list string) (c : string) :
  walk t cur cs = inr d ->
  lookupNode t d = Some Dir ->
  isName c = true ->
  lookupNode t (d ++ [c]) = None ->
  mkdirs t cur (cs ++ [c]) = inr (<[d ++ [c] := Dir]> t, d ++ [c]).
Proof.
  intros Hwalk Hd Hname Hnew. revert cur Hwalk.
  induction cs as [|c0 cs IH]; intros cur Hwalk.
  - injection Hwalk as ->. cbn [app mkdirs]. rewrite Hd, (stepInto_name _ _ Hname), Hnew, Hname.
    rewrite lookupNode_insert_eq by (now destruct d). reflexivity.
  - cbn [app mkdirs walk] in *.
    destruct (lookupNode t cur) as [[]|]; try discriminate.
    destruct (walk_start_present _ _ _ _ _ Hwalk Hd) as [m ->]. now apply IH.
Qed.

Section OneDirectory.
Context {host : Host}.

(** X18: where only the last component of [dir/base] is missing,
    [mkdir] and [mkdirp] do the same: both resolve with the path and
    add that one directory, and nothing else changes. *)
Theorem mkdir_makes_one_directory (w : World) (dir base : string) (d : list string)
  (k : nat) (schedule : list nat) :
  dir <> EmptyString ->
  includes "/" base = false ->
  isName base = true ->
  walk (tree w) (startDir w dir) (splitSlash dir) = inr d ->
  lookupNode (tree w) d = Some Dir ->
  lookupNode (tree w) (d ++ [base]) = None ->
  let x := dir +:+ String "/" base in
  let made := mkMachine (Settled (Resolved (VStr x)))
                (mkWorld (<[d ++ [base] := Dir]> (tree w)) (cwd w)) [] [] in
  exec (k :: schedule) (boot (mkdir ∅ x) w) = made
  /\ exec (k :: schedule) (boot (mkdirp x) w) = made.
Proof.
  intros Hdir Hbase Hname Hwalk Hd Hnew x made. subst made x.
  assert (Hx : dir +:+ String "/" base <> "") by (destruct dir; [contradiction | discriminate]).
  split.
  - unfold mkdir, mkdirWithCancel. rewrite computation_run by reflexivity.
    cbn [perform]. unfold fs_mkdir.
    destruct (String.eqb_spec (dir +:+ String "/" base) ""); [contradiction|].
    replace (boolOption "recursive" ∅) with (@Return bool false) by reflexivity.
    cbn [getOr]. rewrite (resolve_under w dir base d Hdir Hbase Hwalk), Hd.
    rewrite (stepInto_name _ _ Hname), Hnew, removelast_last, Hd. reflexivity.
  - rewrite mkdirp_run, (fs_mkdir_recursive _ w Hx).
    unfold startDir in *. rewrite startsWith_app by assumption.
    rewrite splitSlash_last by assumption.
    rewrite (mkdirs_last _ _ _ d base Hwalk Hd Hname Hnew). reflexivity.
Qed.

(** X19: for a path [dir/base] whose last component [base] is a
    name and whose directory part cannot be walked (a component is
    missing, or is a regular file), [mkdir] without the recursive
    option is rejected with that error and makes nothing. *)
Theorem mkdir_needs_the_parent (w : World) (dir base : string) (e : Errno)
  (k : nat) (schedule : list nat) :
  dir <> EmptyString ->
  includes "/" base = false ->
  isName base = true ->
  walk (tree w) (startDir w dir) (splitSlash dir) = inl e ->
  exec (k :: schedule) (boot (mkdir ∅ (dir +:+ String "/" base)) w)
  = mkMachine (Settled (Rejected (fsError e "mkdir" (dir +:+ String "/" base)))) w [] [].
Proof.
  intros Hdir Hbase _ Hwalk.
  unfold mkdir, mkdirWithCancel. rewrite computation_run by reflexivity.
  cbn [perform]. unfold fs_mkdir, resolve.
  destruct (String.eqb_spec (dir +:+ String "/" base) "") as [Heq|_].
  { destruct dir; [contradiction | discriminate]. }
  replace (boolOption "recursive" ∅) with (@Return bool false) by reflexivity.
  cbn [getOr]. unfold startDir in *. rewrite startsWith_app by assumption.
  rewrite splitSlash_last by assumption. now rewrite walk_app, Hwalk.
Qed.

(** X20: [rm] takes back a [writeFile] that created its file: after
    writing at a path where nothing was and removing that path, the
    removal has resolved with the path and the file system is what
    it was before the write. *)
Theorem rm_undoes_a_fresh_write (w : World) (file content : string)
  (k1 k2 : nat) (r1 r2 : list nat) :
  validPath w file = true ->
  absent w file = true ->
  let written := exec (k1 :: r1) (boot (writeFile file content) w) in
  let removed := exec (k2 :: r2) (boot (rm file) (world written)) in
  outcome written = Some (Resolved (VStr content))
  /\ outcome removed = Some (Resolved (VStr file))
  /\ world removed = w.
Proof.
  intros Hvalid Habsent written removed. subst removed written.
  destruct (fs_writeFile_valid file content w Hvalid) as (q & Hres & Hq & Hnd & Hw1).
  rewrite writeFile_run, Hw1. cbn [fst snd outcome run world].
  split; [reflexivity|].
  unfold rm. rewrite rm_run by reflexivity. unfold fs_rm.
  rewrite (resolve_putFile w file q q _ Hnd Hres).
  cbn [putFile tree cwd]. rewrite lookupNode_insert_eq by assumption.
  cbn [fst snd outcome run world]. split; [reflexivity|].
  unfold absent in Habsent. rewrite Hres in Habsent.
  destruct q as [|c q]; [contradiction|]. cbn [lookupNode] in Habsent.
  destruct (tree w !! (c :: q)) eqn:Hnone; [discriminate|].
  rewrite delete_insert_id by exact Hnone. now destruct w.
Qed.

End OneDirectory.

(** ** Lookups among any number of candidates *)

Lemma delete_app_lt {A : Type} (l l' : list A) (i : nat) :
  i < length l -> delete i (l ++ l') = delete i l ++ l'.
Proof.
  revert i. induction l as [|x l IH]; intros i Hi; cbn in *; [lia|].
  destruct i as [|i]; [reflexivity|]. cbn. f_equal. apply IH. lia.
Qed.

Lemma delete_app_end {A : Type} (l : list A) (x : A) :
  delete (length l) (l ++ [x]) = l.
Proof. induction l as [|y l IH]; cbn; [reflexivity | now f_equal]. Qed.

Lemma delete_constant_snd {A B C : Type} (f : A -> B) (c : C) (l : list A) (i : nat) :
  i < length l ->
  List.map snd (delete i (List.map (fun a => (f a, c)) l)) = replicate (length l - 1) c.
Proof.
  revert i. induction l as [|a l IH]; intros i Hi; cbn in *; [lia|].
  rewrite Nat.sub_0_r. destruct i as [|i]; cbn.
  - clear. induction l as [|b l IH]; cbn; [reflexivity | now f_equal].
  - rewrite IH by lia. destruct l; cbn in *; [lia|]. now rewrite Nat.sub_0_r.
Qed.

Lemma delete_fst_map {A B C : Type} (f : A -> B) (c : C) (l : list A) (i : nat) :
  List.map fst (delete i (List.map (fun a => (f a, c)) l)) = delete i (List.map f l).
Proof.
  revert i. induction l as [|a l IH]; intros i; cbn; [now destruct i|].
  destruct i as [|i]; cbn.
  - clear. induction l as [|b l IH]; cbn; [reflexivity | now f_equal].
  - now f_equal.
Qed.

(** With a plain default and at least one candidate, the default is
    dropped at the first step of the [reduce]. *)
Lemma findFile_fold (fn : string -> Future) (v : Value) (c : string) (cs : list string) :
  findFile fn (Plain v) (c :: cs)
  = Fut (fold_left
           (fun m c' => Race m (MapRej (fun e => Return (R.F e)) (fn c')))
           cs (MapRej (fun e => Return (R.F e)) (fn c))).
Proof.
  unfold findFile, R.reduce, Fluture.mapRej, Fluture.race. cbn [List.map fold_left].
  generalize (MapRej (fun e => Return (R.F e)) (fn c)) as m.
  induction cs as [|c' cs IH]; intros m; [reflexivity|].
  cbn [List.map fold_left]. apply IH.
Qed.

Lemma start_race_unsettled (a b : Future) (ra rb : Running) :
  start a = (ra, []) -> isSettled ra = false ->
  start b = (rb, []) -> isSettled rb = false ->
  start (Race a b) = (RunRace ra rb, []).
Proof.
  intros Ha Hra Hb Hrb. cbn [start]. rewrite Hb.
  destruct rb; try discriminate; rewrite Ha; destruct ra; try discriminate; reflexivity.
Qed.

Section Racing.
Context {host : Host}.
Variables (op : string -> IOop) (callback : string -> Completion -> Outcome)
  (cancel : Cancel).
Hypothesis accepted : forall c, validate (op c) = None.

Local Abbreviation call := (fun c : string => (op c, cancel)).

Lemma racing_snoc (c c' : string) (cs : list string) :
  racing op callback cancel c (cs ++ [c'])
  = RunRace (racing op callback cancel c cs) (probing op callback cancel c').
Proof. unfold racing. now rewrite fold_left_app. Qed.

Lemma racing_unsettled (c : string) (cs : list string) :
  isSettled (racing op callback cancel c cs) = false.
Proof.
  induction cs as [|c' cs _] using rev_ind; [reflexivity|]. now rewrite racing_snoc.
Qed.

Lemma inflight_racing (c : string) (cs : list string) :
  inflight (racing op callback cancel c cs) = List.map call (c :: cs).
Proof.
  induction cs as [|c' cs IH] using rev_ind; [reflexivity|].
  rewrite racing_snoc. cbn [inflight]. rewrite IH.
  cbn [List.map]. now rewrite map_app.
Qed.

(** Running the lookup issues the call of every candidate at once. *)
Lemma start_racing (c : string) (cs : list string) :
  start (fold_left
           (fun m c' =>
              Race m (MapRej (fun e => Return (R.F e)) (probe op callback cancel c')))
           cs (MapRej (fun e => Return (R.F e)) (probe op callback cancel c)))
  = (racing op callback cancel c cs, []).
Proof.
  induction cs as [|c' cs IH] using rev_ind.
  - unfold probe. cbn [fold_left start]. now rewrite accepted.
  - rewrite fold_left_app, racing_snoc. cbn [fold_left].
    apply start_race_unsettled; [exact IH | apply racing_unsettled | | reflexivity].
    unfold probe. cbn [start]. now rewrite accepted.
Qed.

(** Whichever call completes decides the race, and the other calls
    are abandoned, in the order of the list. *)
Lemma fire_racing (c : string) (cs : list string) (w : World) (i : nat) (ci : string) :
  (c :: cs) !! i = Some ci ->
  fire i (racing op callback cancel c cs) w
  = (Settled (verdict callback ci (perform (op ci) w).1), (perform (op ci) w).2,
     delete i (List.map call (c :: cs))).
Proof.
  revert i. induction cs as [|c' cs IH] using rev_ind; intros i Hi.
  - destruct i as [|i]; [|discriminate]. injection Hi as <-.
    unfold racing, probing, verdict. cbn [fold_left fire].
    destruct (perform (op c) w) as [res w']. cbn [fst snd afterMapRej].
    now destruct (callback c res).
  - rewrite racing_snoc. cbn [fire]. rewrite inflight_racing, length_map.
    rewrite app_comm_cons in *. rewrite map_app.
    destruct (Nat.ltb_spec i (length (c :: cs))) as [Hlt|Hge].
    + rewrite lookup_app_l in Hi by assumption.
      rewrite (IH i Hi). rewrite delete_app_lt by (now rewrite length_map).
      reflexivity.
    + assert (i = length (c :: cs)) as ->.
      { apply lookup_lt_Some in Hi. rewrite length_app in Hi. cbn in *. lia. }
      rewrite list_lookup_middle in Hi by reflexivity. injection Hi as <-.
      rewrite Nat.sub_diag. unfold probing, verdict. cbn [fire].
      destruct (perform (op c') w) as [res w']. cbn [fst snd afterMapRej].
      change (List.map call [c']) with [call c'].
      replace (length (c :: cs)) with (length (List.map call (c :: cs)))
        by apply length_map.
      rewrite delete_app_end.
      now destruct (callback c' res).
Qed.

(** The first turn of the loop on a lookup. *)
Lemma lookup_first_turn (v : Value) (c : string) (cs : list string) (w : World)
  (k : nat) :
  exists m ci,
    findFile (probe op callback cancel) (Plain v) (c :: cs) = Fut m
    /\ (c :: cs) !! (k mod length (c :: cs)) = Some ci
    /\ List.map fst (inflight (run (boot m w))) = List.map op (c :: cs)
    /\ orphans (boot m w) = []
    /\ cancelled (boot m w) = []
    /\ step k (boot m w)
       = mkMachine (Settled (verdict callback ci (perform (op ci) w).1))
           (perform (op ci) w).2
           (delete (k mod length (c :: cs)) (List.map op (c :: cs)))
           (replicate (length cs) cancel).
Proof.
  pose proof (Nat.mod_upper_bound k (length (c :: cs)) ltac:(cbn; lia)) as Hlt.
  destruct (lookup_lt_is_Some_2 (c :: cs) _ Hlt) as [ci Hci].
  eexists _, ci. split; [apply findFile_fold|]. split; [exact Hci|].
  unfold boot. rewrite start_racing. cbn [List.map run orphans].
  rewrite inflight_racing.
  split; [rewrite map_map; reflexivity|]. split; [reflexivity|].
  split; [reflexivity|].
  unfold step. cbn [run world orphans cancelled]. rewrite inflight_racing, length_map.
  rewrite Nat.add_0_r.
  replace (length (c :: cs) =? 0) with false by reflexivity.
  rewrite (proj2 (Nat.ltb_lt _ _) Hlt).
  rewrite (fire_racing c cs w _ ci Hci). cbn [app].
  f_equal.
  - exact (delete_fst_map op cancel (c :: cs) _).
  - rewrite (delete_constant_snd op cancel (c :: cs)) by exact Hlt.
    f_equal. cbn [length]. lia.
Qed.

End Racing.

Lemma Forall_map_all {A B : Type} (P : B -> Prop) (f : A -> B) (l : list A) :
  (forall a, P (f a)) -> Forall P (List.map f l).
Proof. intros H. induction l; cbn; constructor; auto. Qed.

Section Lookups.
Context {host : Host}.

(** Calls that were abandoned and do not write leave the file system
    alone when they complete. *)
Lemma exec_abandoned_reads (schedule : list nat) (s : Machine) (o : Outcome) :
  run s = Settled o ->
  Forall (fun op => forall w, (perform op w).2 = w) (orphans s) ->
  run (exec schedule s) = Settled o /\ world (exec schedule s) = world s.
Proof.
  revert s. induction schedule as [|k schedule IH]; intros s Hrun Hpure; [auto|].
  rewrite exec_cons.
  assert (Hstep : run (step k s) = Settled o /\ world (step k s) = world s
                  /\ Forall (fun op => forall w, (perform op w).2 = w) (orphans (step k s))).
  { unfold step. rewrite Hrun. cbn [inflight length Nat.add].
    destruct (length (orphans s) =? 0); [auto|].
    cbn [Nat.ltb Nat.leb]. rewrite Nat.sub_0_r.
    destruct (orphans s !! _) as [op|] eqn:Hop; [|auto].
    cbn [run world orphans]. split; [reflexivity|]. split.
    - eapply Forall_lookup_1 in Hpure; [|exact Hop]. apply Hpure.
    - now apply Forall_delete. }
  destruct Hstep as (Hrun' & Hworld' & Hpure').
  destruct (IH _ Hrun' Hpure') as [Hr Hw]. split; [exact Hr | congruence].
Qed.

(** X21: with a plain default and at least one candidate, running
    [readAnyOr] issues one utf8 read for every candidate before any
    of them completes, whatever their number: the calls in flight are
    the reads of the candidates, each once (nothing is said of the
    order in which they were issued), and none is abandoned. *)
Theorem readAnyOr_reads_all_at_once (v format : Value) (c : string) (cs : list string)
  (w : World) :
  exists m,
    readAnyOr (Plain v) format (c :: cs) = Fut m
    /\ List.map fst (inflight (run (boot m w)))
       ≡ₚ List.map (fun x => ReadFile x (VStr "utf8")) (c :: cs)
    /\ orphans (boot m w) = [].
Proof.
  destruct (lookup_first_turn (fun x => ReadFile x (VStr "utf8"))
              (fun _ res => match res with
                            | Failed err => Rejected err
                            | Done data => Resolved data
                            end)
              NO_OP ltac:(reflexivity) v c cs w 0)
    as (m & ci & Hm & _ & Hin & Horph & _ & _).
  exists m. split; [exact Hm|]. split; [now rewrite Hin | exact Horph].
Qed.

(** X22: with a plain default and any number of candidates, [readAnyOr]
    settles as the read that completes first does: resolved with its
    data, or rejected with [false] when that read fails; the default
    plays no part, and the file system is never touched. *)
Theorem readAnyOr_first_completion_decides (v format : Value) (c : string)
  (cs : list string) (w : World) (k : nat) (schedule : list nat) :
  exists m ci,
    readAnyOr (Plain v) format (c :: cs) = Fut m
    /\ (c :: cs) !! (k mod length (c :: cs)) = Some ci
    /\ outcome (exec (k :: schedule) (boot m w))
       = Some match (fs_readFile ci (VStr "utf8") w).1 with
              | Done data => Resolved data
              | Failed _ => Rejected (VBool false)
              end
    /\ world (exec (k :: schedule) (boot m w)) = w.
Proof.
  destruct (lookup_first_turn (fun x => ReadFile x (VStr "utf8"))
              (fun _ res => match res with
                            | Failed err => Rejected err
                            | Done data => Resolved data
                            end)
              NO_OP ltac:(reflexivity) v c cs w k)
    as (m & ci & Hm & Hci & _ & _ & _ & Hstep).
  exists m, ci. split; [exact Hm|]. split; [exact Hci|].
  rewrite exec_cons, Hstep. cbn [perform].
  edestruct (exec_abandoned_reads schedule) as [Hrun Hworld];
    [| |unfold outcome; rewrite Hrun, Hworld; cbn [world]].
  - reflexivity.
  - cbn [orphans]. apply Forall_delete, Forall_map_all.
    intros x w'. apply fs_readFile_world.
  - rewrite fs_readFile_world. split; [|reflexivity].
    unfold verdict. now destruct (fs_readFile ci (VStr "utf8") w).1.
Qed.

(** X23: [requireAnyOr] with a plain default settles as the access
    check that completes first does: resolved with [true] (not with
    the path that was found) when that candidate exists, rejected
    with [false] when it does not. *)
Theorem requireAnyOr_first_completion_decides (v : Value) (c : string)
  (cs : list string) (w : World) (k : nat) (schedule : list nat) :
  exists m ci,
    requireAnyOr (Plain v) (c :: cs) = Fut m
    /\ (c :: cs) !! (k mod length (c :: cs)) = Some ci
    /\ outcome (exec (k :: schedule) (boot m w))
       = Some match (fs_access ci w).1 with
              | Done _ => Resolved (VBool true)
              | Failed _ => Rejected (VBool false)
              end
    /\ world (exec (k :: schedule) (boot m w)) = w.
Proof.
  destruct (lookup_first_turn (fun x => Access x R_OK)
              (fun _ res => match res with
                            | Failed err => Rejected err
                            | Done _ => Resolved (VBool true)
                            end)
              NO_OP ltac:(reflexivity) v c cs w k)
    as (m & ci & Hm & Hci & _ & _ & _ & Hstep).
  exists m, ci. split; [exact Hm|]. split; [exact Hci|].
  rewrite exec_cons, Hstep. cbn [perform].
  edestruct (exec_abandoned_reads schedule) as [Hrun Hworld];
    [| |unfold outcome; rewrite Hrun, Hworld; cbn [world]].
  - reflexivity.
  - cbn [orphans]. apply Forall_delete, Forall_map_all.
    intros x w'. apply fs_access_world.
  - rewrite fs_access_world. split; [|reflexivity].
    unfold verdict. now destruct (fs_access ci w).1.
Qed.

(** X24: when [findFile] probes with [readFileWithCancel cancel], the
    first read to complete settles the lookup, the cancellation
    function is called once for each of the other candidates, and
    their reads stay in flight, abandoned: the function handed to the
    wrapper is what stands for stopping a read. *)
Theorem findFile_cancels_the_losers (cancel : Cancel) (v : Value) (c : string)
  (cs : list string) (w : World) (k : nat) :
  exists m o,
    findFile (readFileWithCancel cancel) (Plain v) (c :: cs) = Fut m
    /\ cancelled (boot m w) = []
    /\ outcome (step k (boot m w)) = Some o
    /\ cancelled (step k (boot m w)) = replicate (length cs) cancel
    /\ orphans (step k (boot m w))
       = delete (k mod length (c :: cs))
           (List.map (fun x => ReadFile x (VStr "utf8")) (c :: cs)).
Proof.
  destruct (lookup_first_turn (fun x => ReadFile x (VStr "utf8"))
              (fun _ res => match res with
                            | Failed err => Rejected err
                            | Done data => Resolved data
                            end)
              cancel ltac:(reflexivity) v c cs w k)
    as (m & ci & Hm & _ & _ & _ & Hlog & Hstep).
  eexists m, _. split; [exact Hm|]. split; [exact Hlog|].
  rewrite Hstep. repeat split; reflexivity.
Qed.

End Lookups.

(** ** The batch removal settles, in the order of the input *)

Lemma firstFailure_unresolved (rs : list Running) (o : Outcome) :
  firstFailure rs = Some o -> forall v, o <> Resolved v.
Proof.
  induction rs as [|r rs IH]; [discriminate|].
  destruct r as [[]| | | | | | |]; cbn [firstFailure]; try exact IH;
    intros [= <-] v; discriminate.
Qed.

Section BatchOrderFacts.
Context {host : Host}.
Variables (cancel : Cancel) (options : Obj) (max : nat).
Hypothesis positive : 0 < max.

Local Abbreviation member := (removeFileWithConfigAndCancel cancel options).
Local Abbreviation waiting := (removalPending cancel options).
Local Abbreviation memberOf := (removalOf cancel options).

Lemma removalOf_slots (ps : list string) (rs : list Running) :
  Forall2 memberOf ps rs -> Forall (removalSlot cancel options) rs.
Proof. induction 1 as [|fd r ps rs [] _ IH]; constructor; auto; constructor. Qed.

Lemma removalOf_no_failure (ps : list string) (rs : list Running) :
  Forall2 memberOf ps rs -> firstFailure rs = None.
Proof. induction 1 as [|fd r ps rs [] _ IH]; auto. Qed.

Lemma removalOf_values (ps : list string) (rs : list Running) :
  Forall2 memberOf ps rs ->
  (countRunning rs = 0 /\ resolvedValues rs = Some (List.map VStr ps))
  \/ (0 < countRunning rs /\ resolvedValues rs = None).
Proof.
  induction 1 as [|fd r ps rs [] _ IH]; [now left| |].
  - right. split; [unfold countRunning; cbn; lia | reflexivity].
  - destruct IH as [[Hc Hv]|[Hc Hv]]; [left|right]; split;
      try exact Hc; cbn [resolvedValues List.map]; now rewrite Hv.
Qed.

Lemma countRunning_settled (pre post : list Running) (r : Running) (o : Outcome) :
  isSettled r = false ->
  S (countRunning (pre ++ Settled o :: post)) = countRunning (pre ++ r :: post).
Proof.
  intros Hr. rewrite !countRunning_app. unfold countRunning. cbn. rewrite Hr. cbn. lia.
Qed.

(** Refilling the slots starts the queued members in order. *)
Lemma drain_ordered (ps2 ps1 : list string) (started : list Running)
  (orphaned : list (IOop * Cancel)) :
  Forall2 memberOf ps1 started ->
  countRunning started <= max ->
  exists started' ps1' ps2',
    drain start max started (List.map member ps2) orphaned
    = (started', List.map member ps2', orphaned)
    /\ ps1 ++ ps2 = ps1' ++ ps2'
    /\ countRunning started' + length ps2' <= countRunning started + length ps2
    /\ (Refilled cancel options max ps1' started' ps2'
        \/ exists o, firstFailure started' = Some o).
Proof.
  revert ps1 started. induction ps2 as [|fd ps2 IH]; intros ps1 started Hs Hmax.
  - exists started, ps1, []. split; [reflexivity|]. split; [reflexivity|].
    split; [lia|]. left. split; [exact Hs|]. split; [exact Hmax | congruence].
  - cbn [List.map drain]. rewrite (removalOf_no_failure _ _ Hs).
    destruct (countRunning started <? max) eqn:Hroom.
    + apply Nat.ltb_lt in Hroom. rewrite start_removal, app_nil_r.
      destruct (validate (Rm fd options)) as [e|].
      * exists (started ++ [Settled (Crashed e)]), (ps1 ++ [fd]), ps2.
        assert (Hfail : firstFailure (started ++ [Settled (Crashed e)])
                        = Some (Crashed e)).
        { now rewrite firstFailure_app, (removalOf_no_failure _ _ Hs). }
        split; [now apply drain_failed with (o := Crashed e)|].
        split; [now rewrite <- app_assoc|].
        split; [rewrite countRunning_app; unfold countRunning in *; cbn; lia|].
        right. now exists (Crashed e).
      * destruct (IH (ps1 ++ [fd]) (started ++ [waiting fd]))
          as (started' & ps1' & ps2' & Hdrain & Hsplit & Hleft & Hshape).
        { apply Forall2_app; [exact Hs|]. repeat constructor. }
        { rewrite countRunning_app. unfold countRunning in *. cbn. lia. }
        exists started', ps1', ps2'. split; [exact Hdrain|].
        split; [now rewrite <- Hsplit, <- app_assoc|].
        split; [|exact Hshape].
        rewrite countRunning_app in Hleft. unfold countRunning in *. cbn in *. lia.
    + apply Nat.ltb_ge in Hroom.
      exists started, ps1, (fd :: ps2). split; [reflexivity|]. split; [reflexivity|].
      split; [lia|]. left. split; [exact Hs|]. split; [exact Hmax | lia].
Qed.

(** Settling what the refill left. *)
Lemma settle_ordered (paths ps1 ps2 : list string) (started : list Running)
  (w : World) (log : list Cancel) :
  paths = ps1 ++ ps2 ->
  Refilled cancel options max ps1 started ps2
  \/ (exists o, firstFailure started = Some o) ->
  let s := mkMachine (settleParallel max started (List.map member ps2)).1 w
             (List.map fst (settleParallel max started (List.map member ps2)).2) log in
  Ordered cancel options max paths s
  /\ remaining s <= countRunning started + length ps2.
Proof.
  intros Hpaths [(Hs & Hmax & Hfull)|[o Hfail]] s; subst s; unfold settleParallel.
  - rewrite (removalOf_no_failure _ _ Hs).
    destruct ps2 as [|fd ps2].
    + cbn [List.map]. destruct (removalOf_values _ _ Hs) as [[Hc Hv]|[Hc Hv]];
        rewrite Hv; cbn [fst snd List.map].
      * split; [|cbn; lia]. constructor. intros v [= <-].
        now rewrite Hpaths, app_nil_r.
      * split; [|cbn; lia].
        apply (ordered_running cancel options max paths ps1 []); auto.
        split; [exact Hs|]. split; [exact Hmax | congruence].
    + cbn [List.map fst snd]. split.
      * apply (ordered_running cancel options max paths ps1 (fd :: ps2)); auto.
        -- split; [exact Hs|]. split; [exact Hmax | exact Hfull].
        -- rewrite Hfull by discriminate. exact positive.
      * unfold remaining. cbn [run]. cbn [length]. now rewrite List.length_map.
  - rewrite Hfail. cbn [fst snd]. split; [|cbn; lia].
    constructor. intros v ->. now destruct (firstFailure_unresolved _ _ Hfail v).
Qed.

(** One removal of a running batch completes. *)
Lemma fire_ordered (paths ps1 ps2 : list string) (started : list Running) (w : World)
  (i : nat) (x : IOop * Cancel) :
  paths = ps1 ++ ps2 ->
  Forall2 memberOf ps1 started ->
  countRunning started <= max ->
  concat (List.map inflight started) !! i = Some x ->
  exists r' w' o,
    fire i (RunParallel max started (List.map member ps2)) w = (r', w', o)
    /\ forall log,
         Ordered cancel options max paths (mkMachine r' w' (List.map fst o) log)
         /\ S (remaining (mkMachine r' w' (List.map fst o) log))
            <= countRunning started + length ps2.
Proof.
  intros Hpaths Hs Hmax Hi. destruct x as [op c].
  destruct (fireSlots_removal cancel options started i w op c
              (removalOf_slots _ _ Hs) Hi)
    as (pre & fd & post & -> & -> & Hfire).
  apply Forall2_app_inv_r in Hs as (psa & rest & Hpre & Hrest & ->).
  apply Forall2_cons_inv_r in Hrest as (fd' & psb & Hfd & Hpost & ->).
  assert (fd' = fd) as ->.
  { now inversion Hfd. }
  set (settled := match (fs_rm fd options w).1 with
                  | Failed err => Rejected err
                  | Done _ => Resolved (VStr fd)
                  end) in *.
  pose proof (countRunning_settled pre post (waiting fd) settled eq_refl) as Hcount.
  cbn [fire]. rewrite Hfire.
  destruct (fs_rm fd options w).1 as [e|v] eqn:Hrm; subst settled.
  - assert (Hfail : firstFailure (pre ++ Settled (Rejected e) :: post)
                    = Some (Rejected e)).
    { now rewrite firstFailure_app, (removalOf_no_failure _ _ Hpre). }
    rewrite (drain_failed _ _ _ _ _ _ Hfail).
    destruct (settleParallel max (pre ++ Settled (Rejected e) :: post)
                (List.map member ps2)) as [r' o2] eqn:Hset.
    exists r', (fs_rm fd options w).2, o2. split; [reflexivity|]. intros log.
    pose proof (settle_ordered paths (psa ++ fd :: psb) ps2 _ (fs_rm fd options w).2 log
                  Hpaths (or_intror (ex_intro _ _ Hfail))) as Hok.
    cbn zeta in Hok. rewrite Hset in Hok. cbn [fst snd] in Hok.
    destruct Hok as [Hord Hleft]. split; [exact Hord | lia].
  - assert (Hs' : Forall2 memberOf (psa ++ fd :: psb)
                    (pre ++ Settled (Resolved (VStr fd)) :: post)).
    { apply Forall2_app; [exact Hpre|]. constructor; [constructor | exact Hpost]. }
    destruct (drain_ordered ps2 _ _ [] Hs' ltac:(lia))
      as (started' & ps1' & ps2' & Hdrain & Hsplit & Hleft & Hshape).
    rewrite Hdrain.
    destruct (settleParallel max started' (List.map member ps2')) as [r' o2] eqn:Hset.
    exists r', (fs_rm fd options w).2, o2. split; [reflexivity|]. intros log.
    pose proof (settle_ordered paths ps1' ps2' started' (fs_rm fd options w).2 log
                  ltac:(congruence) Hshape) as Hok.
    cbn zeta in Hok. rewrite Hset in Hok. cbn [fst snd] in Hok.
    destruct Hok as [Hord Hleft']. split; [exact Hord | lia].
Qed.

Lemma ordered_once_settled (paths : list string) (s : Machine) (o : Outcome) :
  run s = Settled o ->
  (forall v, o = Resolved v -> v = VArr (List.map VStr paths)) ->
  Ordered cancel options max paths s.
Proof. destruct s as [r w orph log]. cbn. intros -> Ho. now constructor. Qed.

(** Every turn of the loop keeps the order and completes one member. *)
Lemma step_ordered (paths : list string) (s : Machine) (k : nat) :
  Ordered cancel options max paths s ->
  Ordered cancel options max paths (step k s)
  /\ remaining (step k s) <= pred (remaining s).
Proof.
  intros [ps1 ps2 started w log Hpaths (Hs & Hmax & Hfull) Hlive | o w abandoned log Ho].
  - unfold step. cbn [run world orphans cancelled inflight length].
    rewrite Nat.add_0_r.
    destruct (inflight_slots cancel options started (removalOf_slots _ _ Hs)) as [Hlen _].
    rewrite Hlen.
    destruct (countRunning started) as [|n] eqn:Hn; [lia|].
    cbn [Nat.eqb].
    pose proof (Nat.mod_upper_bound k (S n) ltac:(lia)) as Hlt.
    rewrite (proj2 (Nat.ltb_lt _ _) Hlt).
    destruct (lookup_lt_is_Some_2 (concat (List.map inflight started)) (k mod S n)
                ltac:(lia)) as [x Hx].
    destruct (fire_ordered paths ps1 ps2 started w _ x Hpaths Hs ltac:(lia) Hx)
      as (r' & w' & o & -> & Hok).
    cbn [app]. destruct (Hok (log ++ List.map snd o)) as [Hord Hleft].
    split; [exact Hord|].
    unfold remaining at 2. cbn [run]. rewrite length_map, Hn. lia.
  - split.
    + apply ordered_once_settled with (o := o); [now apply step_settled | exact Ho].
    + unfold remaining. rewrite (step_settled k _ o) by reflexivity. lia.
Qed.

(** The batch as it starts. *)
Lemma boot_ordered (paths : list string) (w : World) :
  Ordered cancel options max paths (boot (Parallel max (List.map member paths)) w)
  /\ remaining (boot (Parallel max (List.map member paths)) w) <= length paths.
Proof.
  unfold boot. cbn [start].
  destruct (drain_ordered paths [] [] [] (List.Forall2_nil _) (Nat.le_0_l _))
    as (started' & ps1' & ps2' & -> & Hsplit & Hleft & Hshape).
  pose proof (settle_ordered paths ps1' ps2' started' w
                (List.map snd (settleParallel max started' (List.map member ps2')).2)
                Hsplit Hshape) as Hok.
  cbn zeta in Hok.
  destruct (settleParallel max started' (List.map member ps2')) as [r o].
  cbn [fst snd app] in *. destruct Hok as [Hord Hleft'].
  split; [exact Hord|]. unfold remaining in *. cbn [run] in *.
  change (countRunning []) with 0 in Hleft. lia.
Qed.

Lemma exec_ordered (paths : list string) (schedule : list nat) (s : Machine) :
  Ordered cancel options max paths s ->
  remaining s <= length schedule ->
  Ordered cancel options max paths (exec schedule s)
  /\ remaining (exec schedule s) = 0.
Proof.
  revert s. induction schedule as [|k schedule IH]; intros s Hord Hleft.
  - cbn in *. split; [exact Hord | lia].
  - rewrite exec_cons. destruct (step_ordered paths s k Hord) as [Hord' Hleft'].
    apply IH; [exact Hord'|]. cbn [length] in Hleft. lia.
Qed.

(** A batch with nothing left to do has settled. *)
Lemma ordered_done (paths : list string) (s : Machine) :
  Ordered cancel options max paths s ->
  remaining s = 0 ->
  exists o,
    outcome s = Some o
    /\ (forall v, o = Resolved v -> v = VArr (List.map VStr paths)).
Proof.
  clear positive.
  intros [ps1 ps2 started w log _ _ Hlive | o w abandoned log Ho] Hleft.
  - unfold remaining in Hleft. cbn [run] in Hleft. lia.
  - now exists o.
Qed.

End BatchOrderFacts.

Section BatchOrderResult.
Context {host : Host}.

(** X25: with the parallelism [n] read from the configuration, the
    batch of [removeFilesWithConfigAndCancel] has settled once as many
    calls have completed as there are paths, whichever order they
    complete in; and when it resolves, its value is the array of the
    paths in the order they were given. *)
Theorem removeFiles_settles_in_input_order (cancel : Cancel) (conf : Obj)
  (paths : list string) (w : World) (n : Z) (schedule : list nat) :
  (0 < n)%Z ->
  R.propOr (VNum 10) "parallel" conf = VNum n ->
  length paths <= length schedule ->
  exists m o,
    removeFilesWithConfigAndCancel cancel conf paths = Return m
    /\ outcome (exec schedule (boot m w)) = Some o
    /\ (forall v, o = Resolved v -> v = VArr (List.map VStr paths)).
Proof.
  intros Hn Hconf Hlen.
  set (options := R.without [VStr "parallel"] conf).
  assert (Hmax : 0 < Z.to_nat n) by lia.
  destruct (boot_ordered cancel options (Z.to_nat n) Hmax paths w) as [Hord Hleft].
  destruct (exec_ordered cancel options (Z.to_nat n) Hmax paths schedule _ Hord
              ltac:(lia)) as [Hord' Hdone].
  destruct (ordered_done cancel options (Z.to_nat n) paths _ Hord' Hdone)
    as (o & Hout & Hval).
  eexists _, o. split; [|split; [exact Hout | exact Hval]].
  unfold removeFilesWithConfigAndCancel, Fluture.parallel. rewrite Hconf.
  apply Z.ltb_lt in Hn. rewrite Hn. reflexivity.
Qed.

End BatchOrderResult.

(** ** Removal leaves nothing behind *)

Lemma lookupNode_shrink (t t' : gmap (list string) Node) (q : list string) :
  t' ⊆ t -> lookupNode t' q = lookupNode t q \/ lookupNode t' q = None.
Proof.
  intros Hsub. destruct q as [|c q]; [now left|]. cbn.
  destruct (t' !! (c :: q)) as [n|] eqn:Hn; [left | now right].
  symmetry. eapply lookup_weaken; eauto.
Qed.

(** In a tree that has lost entries, a walk ends where it ended, or
    finds a directory missing. *)
Lemma walk_shrink (t t' : gmap (list string) Node) (cur : list string)
  (cs : list string) :
  t' ⊆ t ->
  match walk t cur cs with
  | inr q => walk t' cur cs = inr q \/ walk t' cur cs = inl ENOENT
  | inl ENOENT => walk t' cur cs = inl ENOENT
  | inl _ => True
  end.
Proof.
  intros Hsub. revert cur. induction cs as [|c cs IH]; intros cur; cbn [walk].
  - now left.
  - destruct (lookupNode_shrink t t' cur Hsub) as [-> | ->].
    + destruct (lookupNode t cur) as [[]|]; [exact I | apply IH | reflexivity].
    + destruct (lookupNode t cur) as [[]|]; [exact I | | reflexivity].
      destruct (walk t (stepInto cur c) cs) as [[]|]; auto.
Qed.

Lemma absent_shrink (w w' : World) (x : string) :
  tree w' ⊆ tree w -> cwd w' = cwd w -> absent w x = true -> absent w' x = true.
Proof.
  intros Hsub Hcwd. unfold absent, resolve, startDir. rewrite Hcwd.
  destruct (String.eqb x ""); [auto|].
  pose proof (walk_shrink (tree w) (tree w') (if startsWith "/" x then [] else cwd w)
                (splitSlash x) Hsub) as Hwalk.
  destruct (walk (tree w) _ (splitSlash x)) as [[]|q]; try discriminate.
  - now rewrite Hwalk.
  - destruct (lookupNode (tree w) q) as [n|] eqn:Hq; [discriminate|]. intros _.
    destruct Hwalk as [-> | ->]; [|reflexivity].
    destruct (lookupNode_shrink (tree w) (tree w') q Hsub) as [-> | ->];
      [now rewrite Hq | reflexivity].
Qed.

(** A path that ends in a name resolves below some directory. *)
Lemma resolve_endsInName (w : World) (x : string) (q : list string) :
  endsInName x = true -> resolve w x = inr q -> q <> [].
Proof.
  unfold endsInName, resolve. intros Hname.
  destruct (String.eqb x ""); [discriminate|].
  destruct (exists_last (splitSlash_nonempty x)) as (cs & base & Hsplit).
  rewrite Hsplit in *. rewrite last_last in Hname.
  rewrite walk_app. destruct (walk (tree w) (startDir w x) cs) as [e|d]; [discriminate|].
  destruct (lookupNode (tree w) d) as [[]|]; try discriminate.
  rewrite (stepInto_name _ _ Hname). intros [= <-]. now destruct d.
Qed.

Section Sweeping.
Context {host : Host}.

Lemma fs_rm_cwd (fd : string) (options : Obj) (w : World) :
  cwd (fs_rm fd options w).2 = cwd w.
Proof.
  unfold fs_rm. destruct (resolve w fd) as [[]|q]; try reflexivity.
  destruct (lookupNode (tree w) q) as [[]|]; try reflexivity.
  now destruct (getOr false (boolOption "recursive" options)).
Qed.

(** A removal that succeeds leaves nothing at its path. *)
Lemma fs_rm_sweeps (fd : string) (options : Obj) (w : World) (v : Value) :
  endsInName fd = true ->
  (fs_rm fd options w).1 = Done v ->
  absent (fs_rm fd options w).2 fd = true.
Proof.
  intros Hname Hdone.
  pose proof (fs_rm_shrinks fd options w) as Hsub.
  pose proof (fs_rm_cwd fd options w) as Hcwd.
  destruct (resolve w fd) as [e|q] eqn:Hres.
  - assert (Hsame : (fs_rm fd options w).2 = w /\ e = ENOENT).
    { unfold fs_rm in *. rewrite Hres in *. destruct e; try discriminate. auto. }
    destruct Hsame as [-> ->]. unfold absent. now rewrite Hres.
  - pose proof (resolve_endsInName w fd q Hname Hres) as Hq.
    assert (Hgone : lookupNode (tree (fs_rm fd options w).2) q = None).
    { unfold fs_rm in *. rewrite Hres in *.
      destruct q as [|c q]; [contradiction|].
      destruct (lookupNode (tree w) (c :: q)) as [[data|]|] eqn:Hn.
      - cbn. apply lookup_delete_eq.
      - destruct (getOr false (boolOption "recursive" options)); [|discriminate].
        cbn. unfold removeTree. apply map_lookup_filter_None. right.
        intros n _ Hkeep. now apply Hkeep.
      - exact Hn. }
    unfold absent, resolve, startDir in *. rewrite Hcwd.
    destruct (String.eqb fd ""); [discriminate|].
    pose proof (walk_shrink (tree w) (tree (fs_rm fd options w).2)
                  (if startsWith "/" fd then [] else cwd w) (splitSlash fd) Hsub) as Hwalk.
    rewrite Hres in Hwalk. destruct Hwalk as [-> | ->]; [now rewrite Hgone | reflexivity].
Qed.

End Sweeping.

Section BatchSweep.
Context {host : Host}.
Variables (cancel : Cancel) (options : Obj) (max : nat).

Local Abbreviation member := (removeFileWithConfigAndCancel cancel options).
Local Abbreviation waiting := (removalPending cancel options).
Local Abbreviation memberOf := (removalOf cancel options).

Lemma sweptSlot_shrink (w w' : World) (r : Running) :
  tree w' ⊆ tree w -> cwd w' = cwd w -> sweptSlot w r -> sweptSlot w' r.
Proof. intros Hsub Hcwd Hr fd Heq. eapply absent_shrink; eauto. Qed.

Lemma sweptSlot_fs_rm (w : World) (fd : string) (r : Running) :
  sweptSlot w r -> sweptSlot (fs_rm fd options w).2 r.
Proof. apply sweptSlot_shrink; [apply fs_rm_shrinks | apply fs_rm_cwd]. Qed.

(** Refilling the slots adds no resolved member. *)
Lemma drain_swept (w : World) (queue : list Future) (started : list Running)
  (orphaned : list (IOop * Cancel)) :
  Forall (sweptSlot w) started ->
  Forall (removalFuture cancel options) queue ->
  Forall (sweptSlot w) (drain start max started queue orphaned).1.1.
Proof.
  revert started orphaned. induction queue as [|m queue IH]; intros started orphaned Hs Hq.
  - exact Hs.
  - cbn [drain]. destruct (firstFailure started); [exact Hs|].
    destruct (countRunning started <? max); [|exact Hs].
    apply Forall_cons in Hq as [[fd ->] Hq]. rewrite start_removal.
    apply IH; [|exact Hq]. apply Forall_app. split; [exact Hs|].
    constructor; [|constructor].
    destruct (validate (Rm fd options)); intros fd' Heq; discriminate.
Qed.

Lemma resolvedValues_swept (w : World) (started : list Running) (vs : list Value) :
  Forall (sweptSlot w) started ->
  resolvedValues started = Some vs ->
  Forall (fun v => forall fd, v = VStr fd -> absent w fd = true) vs.
Proof.
  intros Hs. revert vs. induction Hs as [|r started Hr _ IH]; intros vs.
  - intros [= <-]. constructor.
  - cbn [resolvedValues]. destruct r as [[e|e|v]| | | | | | |]; try discriminate.
    destruct (resolvedValues started) as [vs'|]; [|discriminate].
    intros [= <-]. constructor; [|now apply IH].
    intros fd ->. now apply Hr.
Qed.

Lemma settle_swept (w : World) (started : list Running) (queue : list Future)
  (orphaned : list IOop) (log : list Cancel) :
  Forall (sweptSlot w) started ->
  Swept (mkMachine (settleParallel max started queue).1 w orphaned log).
Proof.
  intros Hs. unfold settleParallel, Swept.
  destruct (firstFailure started) as [o|] eqn:Hfail.
  - cbn. destruct o as [e|e|v]; [exact I | exact I|].
    now destruct (firstFailure_unresolved _ _ Hfail v).
  - destruct queue as [|m queue]; [|exact Hs].
    destruct (resolvedValues started) as [vs|] eqn:Hvs; [|exact Hs].
    cbn. now apply resolvedValues_swept with (started := started).
Qed.

(** One removal of a running batch completes. *)
Lemma fire_swept (paths ps1 ps2 : list string) (started : list Running) (w : World)
  (i : nat) (x : IOop * Cancel) (orphaned : list IOop) (log : list Cancel) :
  paths = ps1 ++ ps2 ->
  Forall (fun fd => endsInName fd = true) paths ->
  Forall2 memberOf ps1 started ->
  Forall (sweptSlot w) started ->
  concat (List.map inflight started) !! i = Some x ->
  Swept (mkMachine (fire i (RunParallel max started (List.map member ps2)) w).1.1
           (fire i (RunParallel max started (List.map member ps2)) w).1.2 orphaned log).
Proof.
  intros Hpaths Hnames Hs Hswept Hi. destruct x as [op c].
  destruct (fireSlots_removal cancel options started i w op c
              (removalOf_slots _ _ _ _ Hs) Hi)
    as (pre & fd & post & -> & -> & Hfire).
  apply Forall2_app_inv_r in Hs as (psa & rest & Hpre & Hrest & ->).
  apply Forall2_cons_inv_r in Hrest as (fd' & psb & Hfd & Hpost & ->).
  assert (fd' = fd) as -> by now inversion Hfd.
  assert (Hname : endsInName fd = true).
  { subst paths. rewrite !Forall_app, Forall_cons in Hnames. tauto. }
  apply Forall_app in Hswept as [Hspre Hspost].
  apply Forall_cons in Hspost as [_ Hspost].
  cbn [fire]. rewrite Hfire.
  set (settled := Settled match (fs_rm fd options w).1 with
                          | Failed err => Rejected err
                          | Done _ => Resolved (VStr fd)
                          end) in *.
  assert (Hnow : Forall (sweptSlot (fs_rm fd options w).2) (pre ++ settled :: post)).
  { apply Forall_app. split; [|constructor].
    - eapply Forall_impl; [exact Hspre|]. intros r. apply sweptSlot_fs_rm.
    - subst settled. intros fd0.
      destruct (fs_rm fd options w).1 as [e|v] eqn:Hrm; [discriminate|].
      intros [= <-]. now apply fs_rm_sweeps with (v := v).
    - eapply Forall_impl; [exact Hspost|]. intros r. apply sweptSlot_fs_rm. }
  pose proof (drain_swept (fs_rm fd options w).2 (List.map member ps2)
                (pre ++ settled :: post) [] Hnow) as Hdrain.
  destruct (drain start max (pre ++ settled :: post) (List.map member ps2) [])
    as [[started' queue'] o1].
  cbn [fst snd] in Hdrain.
  pose proof (settle_swept (fs_rm fd options w).2 started' queue' orphaned log) as Hsettle.
  destruct (settleParallel max started' queue') as [r' o2].
  cbn [fst snd] in *. apply Hsettle, Hdrain.
  clear. induction ps2 as [|p ps2 IH]; cbn; constructor; [now exists p | exact IH].
Qed.

(** Every turn of the loop keeps the batch swept. *)
Lemma step_swept (paths : list string) (s : Machine) (k : nat) :
  Forall (fun fd => endsInName fd = true) paths ->
  Batch cancel options max s ->
  Ordered cancel options max paths s ->
  Swept s ->
  Swept (step k s).
Proof.
  intros Hnames HB Hord Hswept.
  destruct Hord as [ps1 ps2 started w log Hpaths (Hs & Hmax & Hfull) Hlive
                   | o w abandoned log Ho].
  - unfold Swept in Hswept. cbn [run world] in Hswept.
    unfold step. cbn [run world orphans cancelled inflight length].
    rewrite Nat.add_0_r.
    destruct (inflight_slots cancel options started (removalOf_slots _ _ _ _ Hs))
      as [Hlen _].
    rewrite Hlen.
    destruct (countRunning started) as [|n] eqn:Hn; [lia|].
    cbn [Nat.eqb].
    pose proof (Nat.mod_upper_bound k (S n) ltac:(lia)) as Hlt.
    rewrite (proj2 (Nat.ltb_lt _ _) Hlt).
    destruct (lookup_lt_is_Some_2 (concat (List.map inflight started)) (k mod S n)
                ltac:(lia)) as [x Hx].
    pose proof (fun orphaned log' =>
                  fire_swept paths ps1 ps2 started w _ x orphaned log'
                    Hpaths Hnames Hs Hswept Hx) as Hfire.
    destruct (fire (k mod S n) (RunParallel max started (List.map member ps2)) w)
      as [[r' w'] o].
    apply Hfire.
  - inversion HB as [|o' w' abandoned' log' Hab Hlen]; subst.
    unfold step. cbn [run world orphans cancelled inflight length Nat.add].
    destruct (length abandoned =? 0); [exact Hswept|].
    cbn [Nat.ltb Nat.leb]. rewrite Nat.sub_0_r.
    destruct (abandoned !! _) as [op|] eqn:Hop; [|exact Hswept].
    eapply Forall_lookup_1 in Hab as [fd ->]; [|exact Hop].
    unfold Swept in *. cbn [run world perform] in *.
    destruct o as [e|e|[]]; try exact I.
    eapply Forall_impl; [exact Hswept|]. intros v Hv fd' ->.
    eapply absent_shrink; [apply fs_rm_shrinks | apply fs_rm_cwd | now apply Hv].
Qed.

Lemma boot_swept (paths : list string) (w : World) :
  Swept (boot (Parallel max (List.map member paths)) w).
Proof.
  unfold boot. cbn [start].
  pose proof (drain_swept w (List.map member paths) [] [] (List.Forall_nil _)) as Hdrain.
  destruct (drain start max [] (List.map member paths) []) as [[started' queue'] o1].
  cbn [fst snd] in Hdrain.
  pose proof (fun orphaned log => settle_swept w started' queue' orphaned log) as Hsettle.
  destruct (settleParallel max started' queue') as [r' o2].
  cbn [fst snd] in *. apply Hsettle, Hdrain.
  clear. induction paths as [|p paths IH]; cbn; constructor; [now exists p | exact IH].
Qed.

Hypothesis positive : 0 < max.

Lemma exec_keeps_order (paths : list string) (schedule : list nat) (s : Machine) :
  Ordered cancel options max paths s ->
  Ordered cancel options max paths (exec schedule s).
Proof.
  revert s. induction schedule as [|k schedule IH]; intros s Hord; [exact Hord|].
  rewrite exec_cons. apply IH. now apply step_ordered.
Qed.

Lemma exec_swept (paths : list string) (schedule : list nat) (s : Machine) :
  Forall (fun fd => endsInName fd = true) paths ->
  Batch cancel options max s ->
  Ordered cancel options max paths s ->
  Swept s ->
  Swept (exec schedule s).
Proof.
  intros Hnames. revert s.
  induction schedule as [|k schedule IH]; intros s HB Hord Hswept; [exact Hswept|].
  rewrite exec_cons. apply IH.
  - now apply batch_step.
  - now apply step_ordered.
  - now apply step_swept with (paths := paths).
Qed.

End BatchSweep.

Lemma Forall_paths (P : string -> Prop) (paths : list string) :
  Forall (fun v => forall fd, v = VStr fd -> P fd) (List.map VStr paths) ->
  Forall P paths.
Proof.
  induction paths as [|p paths IH]; [constructor|].
  cbn [List.map]. intros [Hp Hrest]%Forall_cons. constructor; auto.
Qed.

(** Once the computation has settled no call is issued any more: the
    abandoned calls complete one by one. *)
Lemma exec_settled_orphans `{host : Host} (schedule : list nat) (s : Machine)
  (o : Outcome) :
  run s = Settled o -> orphans (exec schedule s) `sublist_of` orphans s.
Proof.
  revert s. induction schedule as [|k schedule IH]; intros s Hrun; [reflexivity|].
  rewrite exec_cons. etrans; [apply IH; now apply step_settled|].
  unfold step. rewrite Hrun. cbn [inflight length Nat.add].
  destruct (length (orphans s) =? 0); [reflexivity|].
  cbn [Nat.ltb Nat.leb]. rewrite Nat.sub_0_r.
  destruct (orphans s !! _); [apply sublist_delete | reflexivity].
Qed.

Section BatchRun.
Context {host : Host}.


End BatchRun.

(** * Further instances on the reference host *)

Module Runs.

Lemma write_twice_keeps_the_last_witness :
  validPath Reference.blank "a.txt" = true
  /\ outcome
       (exec (host := Reference.host) [0]
          (boot (writeFile "a.txt" "new")
             (world (exec (host := Reference.host) [0]
                       (boot (writeFile "a.txt" "old") Reference.blank)))))
     = Some (Resolved (VStr "new")).
Proof.
  split; [reflexivity|].
  destruct (write_twice_keeps_the_last (host := Reference.host) Reference.blank
              "a.txt" "old" "new" 0 0 [] [] eq_refl) as [Hout _].
  exact Hout.
Defined.

Lemma write_leaves_other_files_witness :
  validPath Reference.disk "b.txt" = true
  /\ resolve Reference.disk "b.txt" = inr ["b.txt"]
  /\ resolve Reference.disk "a.txt" = inr ["a.txt"]
  /\ outcome
       (exec (host := Reference.host) [0]
          (boot (readFileWithFormatAndCancel NO_OP (VStr "utf8") "a.txt")
             (world (exec (host := Reference.host) [0]
                       (boot (writeFile "b.txt" "x") Reference.disk)))))
     = outcome
         (exec (host := Reference.host) [0]
            (boot (readFileWithFormatAndCancel NO_OP (VStr "utf8") "a.txt")
               Reference.disk)).
Proof.
  split; [vm_compute; reflexivity|]. split; [vm_compute; reflexivity|].
  split; [vm_compute; reflexivity|].
  apply (write_leaves_other_files (host := Reference.host) Reference.disk
           "b.txt" "x" "a.txt" ["b.txt"] ["a.txt"] NO_OP (VStr "utf8") 0 0 [] []);
    [vm_compute; reflexivity | vm_compute; reflexivity | vm_compute; reflexivity
    | discriminate].
Defined.

Lemma readFile_missing_path_witness :
  absent Reference.disk "nope.txt" = true
  /\ outcome (exec (host := Reference.host) [0] (boot (readFile "nope.txt") Reference.disk))
     = Some (Rejected (fsError ENOENT "open" "nope.txt")).
Proof.
  split; [vm_compute; reflexivity|].
  destruct (readFile_missing_path (host := Reference.host) Reference.disk "nope.txt" 0 [])
    as [Hout _]; [vm_compute; reflexivity | exact Hout].
Defined.

Lemma readJSONFile_unreadable_witness :
  outcome (exec (host := Reference.host) [0] (boot (readFile "nope.json") Reference.disk))
  = Some (Rejected (fsError ENOENT "open" "nope.json"))
  /\ outcome (exec (host := Reference.host) [0]
                (boot (readJSONFile (host := Reference.host) "nope.json") Reference.disk))
     = Some (Rejected (fsError ENOENT "open" "nope.json")).
Proof.
  assert (Hread : outcome (exec (host := Reference.host) [0]
                             (boot (readFile "nope.json") Reference.disk))
                  = Some (Rejected (fsError ENOENT "open" "nope.json")))
    by (vm_compute; reflexivity).
  split; [exact Hread|].
  exact (readJSONFile_unreadable (host := Reference.host) Reference.disk "nope.json"
           _ 0 [] Hread).
Defined.

Lemma mkdirp_then_exists_witness :
  outcome (exec (host := Reference.host) [0] (boot (mkdirp "a/b") Reference.blank))
  = Some (Resolved (VStr "a/b"))
  /\ outcome
       (exec (host := Reference.host) [0]
          (boot (exists_ "a/b")
             (world (exec (host := Reference.host) [0]
                       (boot (mkdirp "a/b") Reference.blank)))))
     = Some (Resolved (VBool true)).
Proof.
  assert (Hmade : outcome (exec (host := Reference.host) [0]
                             (boot (mkdirp "a/b") Reference.blank))
                  = Some (Resolved (VStr "a/b"))) by (vm_compute; reflexivity).
  split; [exact Hmade|].
  destruct (mkdirp_then_exists (host := Reference.host) Reference.blank "a/b" _
              0 0 [] [] Hmade) as (_ & _ & _ & Hthere).
  exact Hthere.
Defined.

Lemma mkdirp_on_existing_directory_witness :
  resolve Sample.shelf "d" = inr ["d"]
  /\ exec (host := Reference.host) [0] (boot (mkdirp "d") Sample.shelf)
     = mkMachine (Settled (Resolved (VStr "d"))) Sample.shelf [] []
  /\ exec (host := Reference.host) [0] (boot (mkdir ∅ "d") Sample.shelf)
     = mkMachine (Settled (Rejected (fsError EEXIST "mkdir" "d"))) Sample.shelf [] [].
Proof.
  split; [vm_compute; reflexivity|].
  apply (mkdirp_on_existing_directory (host := Reference.host) Sample.shelf "d" ["d"] 0 []);
    vm_compute; reflexivity.
Defined.

Lemma rm_and_rimraf_on_missing_path_witness :
  absent Reference.disk "nope.txt" = true
  /\ exec (host := Reference.host) [0] (boot (rm "nope.txt") Reference.disk)
     = mkMachine (Settled (Rejected (fsError ENOENT "lstat" "nope.txt")))
         Reference.disk [] []
  /\ exec (host := Reference.host) [0] (boot (rimraf "nope.txt") Reference.disk)
     = mkMachine (Settled (Resolved (VStr "nope.txt"))) Reference.disk [] [].
Proof.
  split; [vm_compute; reflexivity|].
  apply (rm_and_rimraf_on_missing_path (host := Reference.host) Reference.disk
           "nope.txt" 0 []).
  vm_compute. reflexivity.
Defined.

Lemma rm_removes_the_file_witness :
  resolve Reference.disk "a.txt" = inr ["a.txt"]
  /\ outcome (exec (host := Reference.host) [0] (boot (rm "a.txt") Reference.disk))
     = Some (Resolved (VStr "a.txt"))
  /\ absent
       (world (exec (host := Reference.host) [0] (boot (rm "a.txt") Reference.disk)))
       "a.txt"
     = true.
Proof.
  split; [vm_compute; reflexivity|].
  destruct (rm_removes_the_file (host := Reference.host) Reference.disk "a.txt"
              ["a.txt"] (Reference.encode Utf8 "hi") 0 [])
    as (Hout & Hgone & _); [vm_compute; reflexivity | vm_compute; reflexivity|].
  split; [exact Hout | exact Hgone].
Defined.

Lemma rimraf_removes_the_subtree_witness :
  endsInName "d" = true
  /\ resolve Sample.shelf "d" = inr ["d"]
  /\ outcome (exec (host := Reference.host) [0] (boot (rimraf "d") Sample.shelf))
     = Some (Resolved (VStr "d"))
  /\ tree (world (exec (host := Reference.host) [0] (boot (rimraf "d") Sample.shelf)))
     !! ["d"; "f"] = None
  /\ tree (world (exec (host := Reference.host) [0] (boot (rimraf "d") Sample.shelf)))
     !! ["e"] = Some (File []).
Proof.
  split; [reflexivity|]. split; [vm_compute; reflexivity|].
  destruct (rimraf_removes_the_subtree (host := Reference.host) Sample.shelf "d" ["d"] 0 [])
    as (_ & Hout & _ & Htree);
    [reflexivity | vm_compute; reflexivity | vm_compute; reflexivity|].
  split; [exact Hout|].
  split; [rewrite (Htree ["d"; "f"]) | rewrite (Htree ["e"])]; vm_compute; reflexivity.
Defined.

Lemma removeFiles_refuses_bad_parallel_witness :
  ({[ "parallel" := VNum 0 ]} : Obj) !! "parallel" = Some (VNum 0)
  /\ exists message,
       removeFilesWithConfigAndCancel NO_OP {[ "parallel" := VNum 0 ]} ["a.txt"]
       = Throw (TypeError message).
Proof.
  split; [reflexivity|].
  apply (removeFiles_refuses_bad_parallel NO_OP {[ "parallel" := VNum 0 ]} (VNum 0)
           ["a.txt"]); [reflexivity | reflexivity|].
  intros n [= <-]. lia.
Defined.

Lemma removeFiles_settles_in_input_order_witness :
  R.propOr (VNum 10) "parallel" DEFAULT_REMOVAL_CONFIG = VNum 10
  /\ exists m o,
       removeFilesWithConfigAndCancel NO_OP DEFAULT_REMOVAL_CONFIG ["a.txt"; "notes"]
       = Return m
       /\ outcome (exec (host := Reference.host) [1; 0] (boot m Reference.disk)) = Some o.
Proof.
  assert (Hpar : R.propOr (VNum 10) "parallel" DEFAULT_REMOVAL_CONFIG = VNum 10)
    by reflexivity.
  split; [exact Hpar|].
  destruct (removeFiles_settles_in_input_order (host := Reference.host) NO_OP
              DEFAULT_REMOVAL_CONFIG ["a.txt"; "notes"] Reference.disk 10 [1; 0]
              ltac:(lia) Hpar ltac:(cbn; lia)) as (m & o & Hm & Hout & _).
  now exists m, o.
Defined.

Lemma writeFileWithAutoPath_at_the_root_witness :
  includes "/" "file" = false
  /\ exec (host := Reference.host) [0; 0]
       (boot (writeFileWithAutoPath (String "/" "file") "x") Reference.disk)
     = mkMachine (Settled (Rejected (fsError ENOENT "mkdir" ""))) Reference.disk [] [].
Proof.
  split; [reflexivity|].
  destruct (writeFileWithAutoPath_at_the_root (host := Reference.host) Reference.disk
              "file" "x" 0 0 [] eq_refl) as [_ Hrun].
  exact Hrun.
Defined.

Lemma writeFileWithAutoPath_under_a_file_witness :
  walk (tree Reference.disk) (startDir Reference.disk "notes") (splitSlash "notes")
  = inr ["notes"]
  /\ lookupNode (tree Reference.disk) ["notes"] = Some (File [])
  /\ exec (host := Reference.host) [0; 0]
       (boot (writeFileWithAutoPath ("notes" +:+ String "/" "today.txt") "x")
          Reference.disk)
     = mkMachine
         (Settled (Rejected (fsError ENOTDIR "open" ("notes" +:+ String "/" "today.txt"))))
         Reference.disk [] [].
Proof.
  split; [vm_compute; reflexivity|]. split; [vm_compute; reflexivity|].
  apply (writeFileWithAutoPath_under_a_file (host := Reference.host) Reference.disk
           "notes" "today.txt" "x" ["notes"] [] 0 0 []);
    [discriminate | reflexivity | reflexivity | vm_compute; reflexivity
    | vm_compute; reflexivity].
Defined.

Lemma writeFileWithAutoPath_localized_witness :
  sep (Host := Reference.host) = "/"
  /\ directoryOnly (localize (host := Reference.host) "rawr") = "."
  /\ exec (host := Reference.host) [0; 0; 0]
       (boot (writeFileWithAutoPath (localize (host := Reference.host) "rawr") "x")
          Reference.blank)
     = mkMachine (Settled (Resolved (VStr "x")))
         (putFile ([] ++ ["rawr"]) (Reference.encode Utf8 "x") Reference.blank) [] [].
Proof.
  split; [reflexivity|].
  apply (writeFileWithAutoPath_localized (host := Reference.host) Reference.blank
           "rawr" "x" [0; 0; 0]);
    [reflexivity | reflexivity | reflexivity | reflexivity | discriminate | cbn; lia].
Defined.

Lemma mkdir_makes_one_directory_witness :
  walk (tree Sample.shelf) (startDir Sample.shelf "d") (splitSlash "d") = inr ["d"]
  /\ exec (host := Reference.host) [0] (boot (mkdir ∅ ("d" +:+ String "/" "g")) Sample.shelf)
     = exec (host := Reference.host) [0] (boot (mkdirp ("d" +:+ String "/" "g")) Sample.shelf).
Proof.
  split; [vm_compute; reflexivity|].
  destruct (mkdir_makes_one_directory (host := Reference.host) Sample.shelf "d" "g" ["d"] 0 [])
    as [Hone Hall];
    [discriminate | reflexivity | reflexivity | vm_compute; reflexivity
    | vm_compute; reflexivity | vm_compute; reflexivity|].
  now rewrite Hone, Hall.
Defined.

Lemma mkdir_needs_the_parent_witness :
  walk (tree Reference.blank) (startDir Reference.blank "a/b") (splitSlash "a/b")
  = inl ENOENT
  /\ exec (host := Reference.host) [0]
       (boot (mkdir ∅ ("a/b" +:+ String "/" "c")) Reference.blank)
     = mkMachine (Settled (Rejected (fsError ENOENT "mkdir" ("a/b" +:+ String "/" "c"))))
         Reference.blank [] [].
Proof.
  split; [vm_compute; reflexivity|].
  apply (mkdir_needs_the_parent (host := Reference.host) Reference.blank "a/b" "c"
           ENOENT 0 []);
    [discriminate | reflexivity | reflexivity | vm_compute; reflexivity].
Defined.

Lemma rm_undoes_a_fresh_write_witness :
  validPath Reference.disk "b.txt" = true
  /\ absent Reference.disk "b.txt" = true
  /\ world
       (exec (host := Reference.host) [0]
          (boot (rm "b.txt")
             (world (exec (host := Reference.host) [0]
                       (boot (writeFile "b.txt" "x") Reference.disk)))))
     = Reference.disk.
Proof.
  split; [vm_compute; reflexivity|]. split; [vm_compute; reflexivity|].
  destruct (rm_undoes_a_fresh_write (host := Reference.host) Reference.disk "b.txt" "x"
              0 0 [] []) as (_ & _ & Hback);
    [vm_compute; reflexivity | vm_compute; reflexivity | exact Hback].
Defined.



End Runs.
